(** * The article-rewriting pipeline of [src/index.js]

    A shallow embedding of the pipeline script: link filtering, reference
    collection, scraping, the rewriter's response parsing, metadata
    extraction at publish time, and the [main] workflow that sequences them
    around the external collaborators (content store, search provider, page
    fetcher, inference service).

    JavaScript strings are sequences of UTF-16 code units; they are modelled
    as lists of code units ([N]).  The collaborators are fields of a record
    over an abstract world state; every call to one of them, and every log
    line, is recorded in the list of events a computation emits. *)

From Stdlib Require Import Strings.String Strings.Ascii.
From Stdlib Require Import List NArith Bool Arith Lia.
Import ListNotations.

(* ================================================================== *)
(** * JavaScript strings *)
(* ================================================================== *)

Module JS.

Definition jsstring := list N.

(** A literal: each character of the (ASCII) Rocq string becomes one code
    unit.  Rocq string literals have no escapes, so line feeds are spliced
    in with [LF]. *)
Definition js (s : String.string) : jsstring :=
  map Ascii.N_of_ascii (String.list_ascii_of_string s).
Arguments js s%_string.

Definition LF : N := 10.
Definition CR : N := 13.
Definition SPACE : N := 32.
Definition LT : N := 60.      (* '<' *)
Definition GT : N := 62.      (* '>' *)

(** The class [\s] of a regular expression, which is also the set that
    [String.prototype.trim] strips: WhiteSpace and LineTerminator. *)
Definition isWhiteSpace (c : N) : bool :=
  existsb (N.eqb c)
    [9; 10; 11; 12; 13; 32; 160; 5760; 8232; 8233; 8239; 8287; 12288; 65279]%N
  || ((8192 <=? c) && (c <=? 8202))%N.

(** What [.] (without the [s] flag) refuses. *)
Definition isLineTerminator (c : N) : bool :=
  existsb (N.eqb c) [10; 13; 8232; 8233]%N.

(** Canonicalisation under the [i] flag (no [u] flag).  Every pattern of
    the script is ASCII, and ECMAScript's Canonicalize never maps a code
    unit of 128 or more to one below 128, so only ASCII letters fold. *)
Definition canonicalize (c : N) : N :=
  if ((97 <=? c) && (c <=? 122))%N then (c - 32)%N else c.

Definition ci_eq (p c : N) : bool := (canonicalize p =? canonicalize c)%N.

(** [s] starts with the characters of [pat] under comparison [eq]; the
    result is what follows them. *)
Fixpoint strip_prefix (eq : N -> N -> bool) (pat s : jsstring)
  : option jsstring :=
  match pat with
  | [] => Some s
  | p :: pat' =>
      match s with
      | [] => None
      | c :: s' => if eq p c then strip_prefix eq pat' s' else None
      end
  end.

(** Leftmost-match search, as [String.prototype.match] with a non-global
    regular expression does it: try the matcher at index 0, 1, 2, ...
    (the end of the string included). *)
Fixpoint search {A : Type} (m : jsstring -> option A) (s : jsstring)
  : option A :=
  match m s with
  | Some x => Some x
  | None => match s with
            | [] => None
            | _ :: s' => search m s'
            end
  end.

(** [s.includes(pat)] *)
Definition includes (pat s : jsstring) : bool :=
  match search (strip_prefix N.eqb pat) s with
  | Some _ => true
  | None => false
  end.

(** Greedy [\s*] whose continuation cannot fail: the longest run. *)
Fixpoint skip_ws (s : jsstring) : jsstring :=
  match s with
  | c :: s' => if isWhiteSpace c then skip_ws s' else s
  | [] => []
  end.

(** A greedy capture of [.] repeated, at the end of a pattern: the rest of
    the line. *)
Fixpoint rest_of_line (s : jsstring) : jsstring :=
  match s with
  | c :: s' => if isLineTerminator c then [] else c :: rest_of_line s'
  | [] => []
  end.

(** [s.trim()] *)
Definition trimStart (s : jsstring) : jsstring := skip_ws s.

Definition trimEnd (s : jsstring) : jsstring :=
  fold_right
    (fun c acc =>
       match acc with
       | [] => if isWhiteSpace c then [] else [c]
       | _ :: _ => c :: acc
       end)
    [] s.

Definition trim (s : jsstring) : jsstring := trimEnd (trimStart s).

(** [s.slice(0, n)] for a non-negative [n]. *)
Definition slice0 (n : nat) (s : jsstring) : jsstring := firstn n s.

(** [parts.join(sep)] on an array of strings. *)
Fixpoint join (sep : jsstring) (parts : list jsstring) : jsstring :=
  match parts with
  | [] => []
  | [p] => p
  | p :: rest => p ++ sep ++ join sep rest
  end.

(** [a || b] on strings: the empty string is the only falsy one. *)
Definition or_else (a b : jsstring) : jsstring :=
  match a with
  | [] => b
  | _ :: _ => a
  end.

(** [s.replace(/\s+/g, " ")]: scanning left to right, every maximal run of
    white space is replaced by one space.  [in_run] says that the previous
    code unit belonged to the run being replaced. *)
Fixpoint collapse_from (in_run : bool) (s : jsstring) : jsstring :=
  match s with
  | [] => []
  | c :: s' =>
      if isWhiteSpace c
      then (if in_run then collapse_from true s'
            else SPACE :: collapse_from true s')
      else c :: collapse_from false s'
  end.

Definition collapse_ws (s : jsstring) : jsstring := collapse_from false s.

(** [[^>]*>]: the longest run without ['>'], then ['>'].  Backtracking
    into the run cannot help, since a shorter run is followed by a code
    unit that is not ['>']. *)
Fixpoint tag_rest (s : jsstring) : option jsstring :=
  match s with
  | [] => None
  | c :: s' => if (c =? GT)%N then Some s' else tag_rest s'
  end.

(** [s.replace(/<[^>]*>/g, empty)]: a ['<'] with a ['>'] somewhere after it
    opens a match, which ends at the first such ['>']; a ['<'] with no
    ['>'] after it is kept. *)
Fixpoint strip_from (in_tag : bool) (s : jsstring) : jsstring :=
  match s with
  | [] => []
  | c :: s' =>
      if in_tag
      then (if (c =? GT)%N then strip_from false s' else strip_from true s')
      else
        if (c =? LT)%N
        then match tag_rest s' with
             | Some _ => strip_from true s'
             | None => c :: strip_from false s'
             end
        else c :: strip_from false s'
  end.

Definition strip_tags (s : jsstring) : jsstring := strip_from false s.

(** Lazy [([\s\S]*?)] followed by [close]: the capture is the shortest
    prefix after which [close] matches. *)
Fixpoint lazy_capture (close : jsstring -> option jsstring) (s : jsstring)
  : option jsstring :=
  match close s with
  | Some _ => Some []
  | None =>
      match s with
      | [] => None
      | c :: s' => option_map (cons c) (lazy_capture close s')
      end
  end.

End JS.

Import JS.

(* ================================================================== *)
(** * Data model *)
(* ================================================================== *)

(** The article read from the content store: [{id, title, content}]. *)
Record SourceArticle := {
  art_id : N;
  art_title : jsstring;
  art_content : jsstring
}.

(** One entry of the search response's [organic] array. *)
Record organic_result := {
  link : jsstring;
  snippet : jsstring
}.

(** What [rewriteWithAI] returns when it does not return [null]. *)
Record RewriteResult := {
  title : jsstring;
  description : jsstring;
  content : jsstring
}.

(** A chat message and the request passed to [hf.chatCompletion]. *)
Record message := {
  role : jsstring;
  msg_content : jsstring
}.

Record chat_request := {
  model : jsstring;
  messages : list message;
  max_tokens : N
}.

(** The body of the POST to [/articles/{id}/ai-version]; [None] is
    JavaScript's [null]. *)
Record payload := {
  p_title : option jsstring;
  p_description : option jsstring;
  p_content : jsstring;
  p_references : list jsstring
}.

(** The three selectors [scrapeArticle] queries. *)
Inductive selector := sel_article | sel_main | sel_body.

(* ================================================================== *)
(** * Pure parts of the script *)
(* ================================================================== *)

(** [isValidBlogLink], lines 7-15. *)
Definition isValidBlogLink (url : jsstring) : bool :=
  negb (includes (js "wikipedia.org") url) &&
  negb (includes (js "beyondchats.com") url) &&
  negb (includes (js "youtube.com") url) &&
  negb (includes (js "facebook.com") url) &&
  negb (includes (js "linkedin.com") url).

(** Group 1 of [text.match(re)] for [re] the marker, then [\s*], then a
    captured greedy run of [.], under the [i] flag: leftmost occurrence of
    the marker, white space skipped, the rest of the line captured. *)
Definition match_line (marker text : jsstring) : option jsstring :=
  search
    (fun s => option_map (fun r => rest_of_line (skip_ws r))
                         (strip_prefix ci_eq marker s))
    text.

(** The same with a captured greedy run of [[\s\S]]: the capture runs to
    the end of the text. *)
Definition match_rest (marker text : jsstring) : option jsstring :=
  search (fun s => option_map skip_ws (strip_prefix ci_eq marker s)) text.

(** [m?.[1] || fallback]: the fallback is taken when there is no match and
    when the capture is the empty string. *)
Definition capture_or (m : option jsstring) (fallback : jsstring) : jsstring :=
  match m with
  | Some c => or_else c fallback
  | None => fallback
  end.

Definition default_title : jsstring := js "New Efficiency Insights".
Definition default_description : jsstring :=
  js "Learn how to optimize service platforms.".

(** Lines 97-101 of [rewriteWithAI]: pulling the pieces out of the
    model's response. *)
Definition parse_response (text : jsstring) : RewriteResult :=
  {| title := capture_or (match_line (js "TITLE:") text) default_title;
     description :=
       capture_or (match_line (js "DESCRIPTION:") text) default_description;
     content := capture_or (match_rest (js "CONTENT:") text) text |}.

(** The prompt of [rewriteWithAI], lines 76-92. *)
Definition system_prompt : jsstring :=
  js "You are an SEO Expert. Return your response in this exact format:"
  ++ [LF] ++ js "TITLE: [New Unique Related Title]"
  ++ [LF] ++ js "DESCRIPTION: [New SEO Description]"
  ++ [LF] ++ js "CONTENT: [The HTML Article]".

Definition user_prompt (original : jsstring) (urls : list jsstring)
  : jsstring :=
  js "Rewrite this: " ++ slice0 800 original
  ++ js ". Refs: " ++ join (js ", ") urls.

Definition rewrite_request (original : jsstring) (urls : list jsstring)
  : chat_request :=
  {| model := js "meta-llama/Llama-3.2-3B-Instruct";
     messages :=
       [ {| role := js "system"; msg_content := system_prompt |};
         {| role := js "user"; msg_content := user_prompt original urls |} ];
     max_tokens := 1500 |}.

(** [<h[1-2]] and [</h[1-2]>] under the [i] flag. *)
Definition is_1_or_2 (c : N) : bool := ((c =? 49) || (c =? 50))%N.

Definition heading_open (s : jsstring) : option jsstring :=
  match strip_prefix ci_eq (js "<h") s with
  | Some (d :: r) => if is_1_or_2 d then Some r else None
  | _ => None
  end.

Definition heading_close (s : jsstring) : option jsstring :=
  match strip_prefix ci_eq (js "</h") s with
  | Some (d :: r) =>
      if is_1_or_2 d then strip_prefix ci_eq [GT] r else None
  | _ => None
  end.

(** A whole element pattern [open [^>]*> ([\s\S]*?) close] tried at the
    start of [s]; the result is capture group 1. *)
Definition element_at (open close : jsstring -> option jsstring)
  (s : jsstring) : option jsstring :=
  match open s with
  | Some r =>
      match tag_rest r with
      | Some body => lazy_capture close body
      | None => None
      end
  | None => None
  end.

(** [finalContent.match(/<h[1-2][^>]*>([\s\S]*?)<\/h[1-2]>/i)], group 1. *)
Definition titleMatch (finalContent : jsstring) : option jsstring :=
  search (element_at heading_open heading_close) finalContent.

(** [finalContent.match(/<p[^>]*>([\s\S]*?)<\/p>/i)], group 1. *)
Definition descMatch (finalContent : jsstring) : option jsstring :=
  search (element_at (strip_prefix ci_eq (js "<p"))
                     (strip_prefix ci_eq (js "</p>")))
         finalContent.

(** [m ? m[1].replace(/<[^>]*>/g, empty).trim() : null] *)
Definition extracted (m : option jsstring) : option jsstring :=
  option_map (fun inner => trim (strip_tags inner)) m.

Definition extractedTitle (finalContent : jsstring) : option jsstring :=
  extracted (titleMatch finalContent).

Definition extractedDesc (finalContent : jsstring) : option jsstring :=
  extracted (descMatch finalContent).

(** The cleaning of the scraped text, line 68. *)
Definition clean_text (text : jsstring) : jsstring :=
  slice0 4000 (trim (collapse_ws text)).

(* ================================================================== *)
(** * Effects: collaborators, events, exceptions *)
(* ================================================================== *)

(** An exception is represented by its [message]. *)
Definition Error := jsstring.

(** How an evaluation ends: with a value, or by throwing. *)
Inductive outcome (A : Type) : Type :=
| Returned (a : A)
| Raised (e : Error).
Arguments Returned {A} a.
Arguments Raised {A} e.

(** The lines written with [console.log] and [console.error]. *)
Inductive log_line :=
| LogFetching
| LogSearching
| LogNotEnoughLinks
| LogScraping
| LogGenerating
| LogGenerationFailed
| LogPublishing (t : jsstring)
| LogPublished
| LogError (msg : Error)
| LogSearchFailed (msg : Error)
| LogScrapeFailed (url : jsstring)
| LogLLMError (msg : Error)
| LogExtractedTitle (t : option jsstring)
| LogExtractedDescription (d : option jsstring).

(** What the process does that is visible from outside: the requests it
    issues to its collaborators and the lines it logs. *)
Inductive event :=
| GetLatest
| Search (q : jsstring)
| Fetch (url : jsstring)
| Chat (req : chat_request)
| Post (id : N) (body : payload)
| Log (l : log_line).

(** The collaborators the script reaches through [axios], [cheerio] and
    [hf].  Each network call takes the world to a new world and returns or
    throws; [World] is whatever state the outside has, [Body] is the type
    of a fetched response body.

    - [get_latest]: [axios.get(LARAVEL_API/articles-latest)], then [.data];
    - [serper_search q]: the POST to the search endpoint, then
      [.data.organic] with a [link] string in every entry; a response of
      another shape makes line 43-46 throw inside the [try], which is a
      [Raised] outcome here;
    - [get_page url]: [axios.get(url, {timeout: 10000})], then [.data];
    - [cheerio_load data]: [cheerio.load(data)], giving the function that
      maps a selector to [$(selector).text()];
    - [chatCompletion req]: [hf.chatCompletion(req)], then
      [.choices[0].message.content]; a response without such a string
      makes line 94 or 97 throw inside the [try], which is a [Raised]
      outcome here;
    - [post_ai_version id body]: the POST of line 130. *)
Record Collaborators (World Body : Type) := {
  get_latest : World -> outcome SourceArticle * World;
  serper_search : jsstring -> World -> outcome (list organic_result) * World;
  get_page : jsstring -> World -> outcome Body * World;
  cheerio_load : Body -> outcome (selector -> jsstring);
  chatCompletion : chat_request -> World -> outcome jsstring * World;
  post_ai_version : N -> payload -> World -> outcome unit * World
}.
Arguments get_latest {World Body} _ _.
Arguments serper_search {World Body} _ _ _.
Arguments get_page {World Body} _ _ _.
Arguments cheerio_load {World Body} _ _.
Arguments chatCompletion {World Body} _ _ _.
Arguments post_ai_version {World Body} _ _ _ _.

(** A computation: from a world to an outcome, the world it leaves, and
    the events it emitted, oldest first. *)
Definition M (World A : Type) : Type :=
  World -> outcome A * World * list event.

Definition ret {W A} (a : A) : M W A := fun w => (Returned a, w, []).

Definition throw {W A} (e : Error) : M W A := fun w => (Raised e, w, []).

Definition bind {W A B} (m : M W A) (k : A -> M W B) : M W B :=
  fun w =>
    match m w with
    | (Returned a, w1, t1) =>
        match k a w1 with
        | (o, w2, t2) => (o, w2, t1 ++ t2)
        end
    | (Raised e, w1, t1) => (Raised e, w1, t1)
    end.

(** [try { m } catch (err) { h err }] *)
Definition try_catch {W A} (m : M W A) (h : Error -> M W A) : M W A :=
  fun w =>
    match m w with
    | (Returned a, w1, t1) => (Returned a, w1, t1)
    | (Raised e, w1, t1) =>
        match h e w1 with
        | (o, w2, t2) => (o, w2, t1 ++ t2)
        end
    end.

(** A request to a collaborator: the event is emitted, then the
    collaborator answers. *)
Definition call {W A} (ev : event) (c : W -> outcome A * W) : M W A :=
  fun w => match c w with (o, w1) => (o, w1, [ev]) end.

(** A pure step that may throw. *)
Definition lift {W A} (o : outcome A) : M W A := fun w => (o, w, []).

Definition log {W} (l : log_line) : M W unit :=
  fun w => (Returned tt, w, [Log l]).

Declare Scope js_scope.
Delimit Scope js_scope with js.
Notation "x <- m ;; k" := (bind m (fun x => k))
  (at level 61, m at next level, right associativity) : js_scope.
Notation "m ;; k" := (bind m (fun _ => k))
  (at level 61, right associativity) : js_scope.
Open Scope js_scope.

(** [await Promise.all(xs.map(f))].  The calls are started in the order of
    [xs] and their results are paired with it by position.  The model runs
    the calls one after the other.  In the script every call issues its
    request before the first response is handled, so there the requests
    come first in the order of events and the responses are handled in the
    order of their arrival; which requests are made, with what, and what
    each call returns is the same. *)
Fixpoint promise_all_map {W A B} (f : A -> M W B) (xs : list A)
  : M W (list B) :=
  match xs with
  | [] => ret []
  | x :: xs' =>
      y <- f x ;;
      ys <- promise_all_map f xs' ;;
      ret (y :: ys)
  end.

(** The outcome, the final world and the events of a run. *)
Definition outcome_of {W A} (r : outcome A * W * list event) : outcome A :=
  fst (fst r).
Definition world_of {W A} (r : outcome A * W * list event) : W :=
  snd (fst r).
Definition events_of {W A} (r : outcome A * W * list event) : list event :=
  snd r.

(** Projections of a list of events: the URLs fetched for scraping, the
    chat requests sent to the model, the bodies posted to the store. *)
Definition fetched_urls (tr : list event) : list jsstring :=
  flat_map (fun e => match e with Fetch u => [u] | _ => [] end) tr.

Definition chat_requests (tr : list event) : list chat_request :=
  flat_map (fun e => match e with Chat r => [r] | _ => [] end) tr.

Definition posts (tr : list event) : list (N * payload) :=
  flat_map (fun e => match e with Post i b => [(i, b)] | _ => [] end) tr.

(** A list of events in which the three collaborators of interest do not
    appear. *)
Definition quiet (tr : list event) : Prop :=
  fetched_urls tr = [] /\ chat_requests tr = [] /\ posts tr = [].

(* ================================================================== *)
(** * The script *)
(* ================================================================== *)

Section Script.

Context {World Body : Type} (env : Collaborators World Body).

(** [fetchLatestArticle], lines 20-25. *)
Definition fetchLatestArticle : M World SourceArticle :=
  call GetLatest (get_latest env).

(** [googleSearch], lines 30-53. *)
Definition googleSearch (q : jsstring) : M World (list jsstring) :=
  try_catch
    (organic <- call (Search q) (serper_search env q) ;;
     ret (firstn 2 (filter isValidBlogLink (map link organic))))
    (fun err => log (LogSearchFailed err) ;; ret []).

(** [scrapeArticle], lines 58-73. *)
Definition scrapeArticle (url : jsstring) : M World jsstring :=
  try_catch
    (data <- call (Fetch url) (get_page env url) ;;
     dollar <- lift (cheerio_load env data) ;;
     ret (clean_text
            (or_else (dollar sel_article)
                     (or_else (dollar sel_main) (dollar sel_body)))))
    (fun _ => log (LogScrapeFailed url) ;; ret []).

(** [rewriteWithAI], lines 75-106.  [refs] is a parameter of the source
    function that its body never reads. *)
Definition rewriteWithAI (original : jsstring) (refs urls : list jsstring)
  : M World (option RewriteResult) :=
  try_catch
    (text <- call (Chat (rewrite_request original urls))
                  (chatCompletion env (rewrite_request original urls)) ;;
     ret (Some (parse_response text)))
    (fun err => log (LogLLMError err) ;; ret None).

(** [publishArticle], lines 114-140.  [aiData] is a string or a result
    object. *)
Definition publishArticle (id : N) (aiData : jsstring + RewriteResult)
  (refs : list jsstring) : M World unit :=
  let finalContent :=
    match aiData with
    | inl s => s
    | inr r => content r
    end in
  log (LogExtractedTitle (extractedTitle finalContent)) ;;
  log (LogExtractedDescription (extractedDesc finalContent)) ;;
  let body :=
    {| p_title := extractedTitle finalContent;
       p_description := extractedDesc finalContent;
       p_content := finalContent;
       p_references := refs |} in
  call (Post id body) (post_ai_version env id body).

(** [main], lines 145-176.  [!aiData.content] holds of the empty string. *)
Definition main : M World unit :=
  try_catch
    (log LogFetching ;;
     article <- fetchLatestArticle ;;
     log LogSearching ;;
     links <- googleSearch (art_title article) ;;
     if length links <? 2 then log LogNotEnoughLinks
     else
       log LogScraping ;;
       refContents <- promise_all_map scrapeArticle links ;;
       log LogGenerating ;;
       aiData <- rewriteWithAI (art_content article) refContents links ;;
       match aiData with
       | None => log LogGenerationFailed
       | Some r =>
           match content r with
           | [] => log LogGenerationFailed
           | _ :: _ =>
               log (LogPublishing (title r)) ;;
               publishArticle (art_id article) (inr r) links ;;
               log LogPublished
           end
       end)
    (fun err => log (LogError err)).

End Script.

(* ================================================================== *)
(** * Concrete collaborators, for running the script on examples *)
(* ================================================================== *)

Module Demo.

(** The world is the number of requests answered so far; a fetched body
    is the text its [body] selector yields. *)
Definition demo_env (organic : outcome (list organic_result))
  (page : jsstring -> outcome jsstring) (reply : outcome jsstring)
  : Collaborators nat jsstring :=
  {| get_latest := fun w =>
       (Returned {| art_id := 7; art_title := js "X";
                    art_content := js "Original body" |}, S w);
     serper_search := fun _ w => (organic, S w);
     get_page := fun url w => (page url, S w);
     cheerio_load := fun data =>
       Returned (fun sel => match sel with
                            | sel_body => data
                            | _ => []
                            end);
     chatCompletion := fun _ w => (reply, S w);
     post_ai_version := fun _ _ w => (Returned tt, S w) |}.

Definition hit (url : String.string) : organic_result :=
  {| link := js url; snippet := [] |}.
Arguments hit url%_string.

Definition three_hits : list organic_result :=
  [ hit "https://en.wikipedia.org/wiki/X";
    hit "https://blog.example.com/x";
    hit "https://news.example.org/x" ].

Definition one_good_hit : list organic_result :=
  [ hit "https://www.youtube.com/watch?v=1";
    hit "https://blog.example.com/x" ].

Definition page_ok (url : jsstring) : outcome jsstring :=
  Returned (js "  Reference   text " ++ [LF; LF] ++ js " of a page ").

Definition page_down (url : jsstring) : outcome jsstring :=
  Raised (js "timeout of 10000ms exceeded").

(** A model response in the format the system prompt asks for. *)
Definition good_reply : jsstring :=
  js "TITLE: New Title" ++ [LF] ++
  js "DESCRIPTION: New Desc" ++ [LF] ++
  js "CONTENT: <h2>Inner Heading</h2><p>Body text</p>".

(** The same format, with a trailing blank on the title line and a final
    line feed. *)
Definition padded_reply : jsstring :=
  js "TITLE: A " ++ [LF] ++
  js "DESCRIPTION: B" ++ [LF] ++
  js "CONTENT: <p>C</p>" ++ [LF].

Definition env_publish := demo_env (Returned three_hits) page_ok
                                   (Returned good_reply).
Definition env_one_link := demo_env (Returned one_good_hit) page_ok
                                    (Returned good_reply).
Definition env_llm_down := demo_env (Returned three_hits) page_ok
                                    (Raised (js "quota exceeded")).
Definition env_page_down := demo_env (Returned three_hits) page_down
                                     (Returned good_reply).

(** A model that answers in prose, without any marker. *)
Definition prose_reply : jsstring := js "Sorry, I cannot help with that.".

Definition env_padded := demo_env (Returned three_hits) page_ok
                                  (Returned padded_reply).
Definition env_prose := demo_env (Returned three_hits) page_ok
                                 (Returned prose_reply).

(** The article served by [demo_env] and the links [googleSearch] keeps
    of [three_hits] and of [one_good_hit]. *)
Definition the_article : SourceArticle :=
  {| art_id := 7; art_title := js "X"; art_content := js "Original body" |}.

Definition two_links : list jsstring :=
  [js "https://blog.example.com/x"; js "https://news.example.org/x"].

Definition one_link : list jsstring := [js "https://blog.example.com/x"].

(** Collaborators that fail at one place each. *)
Definition env_store_down : Collaborators nat jsstring :=
  {| get_latest := fun w => (Raised (js "connect ECONNREFUSED"), S w);
     serper_search := serper_search env_publish;
     get_page := get_page env_publish;
     cheerio_load := cheerio_load env_publish;
     chatCompletion := chatCompletion env_publish;
     post_ai_version := post_ai_version env_publish |}.

Definition env_search_down :=
  demo_env (Raised (js "Request failed with status code 403")) page_ok
           (Returned good_reply).

Definition env_post_down : Collaborators nat jsstring :=
  {| get_latest := get_latest env_publish;
     serper_search := serper_search env_publish;
     get_page := get_page env_publish;
     cheerio_load := cheerio_load env_publish;
     chatCompletion := chatCompletion env_publish;
     post_ai_version := fun _ _ w =>
       (Raised (js "Request failed with status code 500"), S w) |}.

Definition env_parser_down : Collaborators nat jsstring :=
  {| get_latest := get_latest env_publish;
     serper_search := serper_search env_publish;
     get_page := get_page env_publish;
     cheerio_load := fun _ => Raised (js "cheerio.load() expects a string");
     chatCompletion := chatCompletion env_publish;
     post_ai_version := post_ai_version env_publish |}.

(** A page whose [article] element holds white space only, and whose
    [body] holds text. *)
Definition env_blank_article : Collaborators nat jsstring :=
  {| get_latest := get_latest env_publish;
     serper_search := serper_search env_publish;
     get_page := get_page env_publish;
     cheerio_load := fun data =>
       Returned (fun sel => match sel with
                            | sel_article => [SPACE; LF; SPACE]
                            | sel_main => []
                            | sel_body => data
                            end);
     chatCompletion := chatCompletion env_publish;
     post_ai_version := post_ai_version env_publish |}.

(** The body [publishArticle] posts for [good_reply]. *)
Definition good_body : payload :=
  {| p_title := Some (js "Inner Heading");
     p_description := Some (js "Body text");
     p_content := js "<h2>Inner Heading</h2><p>Body text</p>";
     p_references := two_links |}.

(** A response in the asked format with lines ended by CR LF. *)
Definition crlf_reply : jsstring :=
  js "TITLE: New Title" ++ [CR; LF] ++
  js "DESCRIPTION: New Desc" ++ [CR; LF] ++
  js "CONTENT: <p>Body</p>".

Definition env_crlf := demo_env (Returned three_hits) page_ok
                                (Returned crlf_reply).

End Demo.

(* ================================================================== *)
(** * Notions used in the statements *)
(* ================================================================== *)

(** [l1] is [l2] with some elements left out, the others in their order. *)
Inductive subsequence {A : Type} : list A -> list A -> Prop :=
| subsequence_nil : subsequence [] []
| subsequence_skip (x : A) (l1 l2 : list A) :
    subsequence l1 l2 -> subsequence l1 (x :: l2)
| subsequence_keep (x : A) (l1 l2 : list A) :
    subsequence l1 l2 -> subsequence (x :: l1) (x :: l2).

(** Two white-space code units in a row somewhere in [s]. *)
Fixpoint has_ws_run (s : jsstring) : bool :=
  match s with
  | a :: s' =>
      match s' with
      | b :: _ => (isWhiteSpace a && isWhiteSpace b) || has_ws_run s'
      | [] => false
      end
  | [] => false
  end.

(** No run of two or more white-space code units: at no position of [s]
    are two neighbours both white space. *)
Definition no_whitespace_run (s : jsstring) : Prop :=
  forall pre a b post,
    s = pre ++ a :: b :: post ->
    ~ (isWhiteSpace a = true /\ isWhiteSpace b = true).

(** [s] holds the marker [pat] somewhere, letter case ignored. *)
Definition mentions (pat s : jsstring) : bool :=
  match search (strip_prefix ci_eq pat) s with
  | Some _ => true
  | None => false
  end.

(** What the title pattern of the extraction at publish time matches.
    The pattern scans for a shape and does not parse HTML: an opening
    [<h1] or [<h2] (either case), somewhere after it a ['>'], and
    somewhere after that a closing [</h1>] or [</h2>].  A content can hold
    the shape without holding a heading element: [<h1x>foo</h1>] does. *)
Definition heading_shape_in (s : jsstring) : Prop :=
  exists pre h d attrs inner h' d' post,
    s = pre ++ [LT; h; d] ++ attrs ++ [GT] ++ inner
            ++ [LT; 47%N; h'; d'; GT] ++ post /\
    (h = 104%N \/ h = 72%N) /\ (h' = 104%N \/ h' = 72%N) /\
    (d = 49%N \/ d = 50%N) /\ (d' = 49%N \/ d' = 50%N).

(** The same for the description pattern: [<p], then ['>'], then [</p>].
    [<pre>x</pre></p>] holds the shape and no paragraph element. *)

Definition paragraph_shape_in (s : jsstring) : Prop :=
  exists pre p attrs inner p' post,
    s = pre ++ [LT; p] ++ attrs ++ [GT] ++ inner
            ++ [LT; 47%N; p'; GT] ++ post /\
    (p = 112%N \/ p = 80%N) /\ (p' = 112%N \/ p' = 80%N).

(** What ends a tag name in HTML: tab, line feed, form feed, carriage
    return, space, ['/'] or ['>']. *)
Definition ends_tag_name (c : N) : bool :=
  existsb (N.eqb c) [9; 10; 12; 13; 32; 47; 62]%N.

(** [s] holds a start tag named [name]: ['<'], the name in either letter
    case, then the end of the tag name.  An element named [name] in a
    content begins with such a tag. *)
Definition start_tag_in (name s : jsstring) : bool :=
  match
    search (fun x => match strip_prefix ci_eq (LT :: name) x with
                     | Some (c :: _) =>
                         if ends_tag_name c then Some c else None
                     | _ => None
                     end) s
  with
  | Some _ => true
  | None => false
  end.

(** [pat] cannot match at the start of [s ++ t], whatever [t] is: a code
    unit of [s] differs from the pattern's. *)
Fixpoint clash (pat s : jsstring) : bool :=
  match pat, s with
  | p :: pat', c :: s' => if ci_eq p c then clash pat' s' else true
  | _, _ => false
  end.

(** [pat] clashes at every position of [pre]. *)
Fixpoint clash_throughout (pat pre : jsstring) : bool :=
  match pre with
  | [] => true
  | _ :: pre' => clash pat pre && clash_throughout pat pre'
  end.

(** A response in the format of the system prompt: the three markers, each
    at the start of its line; [t] and [d] are what follows the first two
    markers on their lines, [c] is all that follows the third. *)
Definition formatted_response (t d c : jsstring) : jsstring :=
  js "TITLE:" ++ t ++ LF :: js "DESCRIPTION:" ++ d ++ LF :: js "CONTENT:" ++ c.

(** A segment of one line. *)
Definition one_line (s : jsstring) : Prop :=
  Forall (fun c => isLineTerminator c = false) s.

(** The substrings [isValidBlogLink] looks for. *)
Definition excluded_domains : list jsstring :=
  [js "wikipedia.org"; js "beyondchats.com"; js "youtube.com";
   js "facebook.com"; js "linkedin.com"].

(** [pat] occurs in [s] as a run of neighbouring code units. *)
Definition occurs_in (pat s : jsstring) : Prop :=
  exists pre post, s = pre ++ pat ++ post.

(** Every white-space code unit of [s] is the plain space. *)
Definition only_plain_spaces (s : jsstring) : Prop :=
  forall c, In c s -> isWhiteSpace c = true -> c = SPACE.

(** [s] does not begin, resp. end, with white space. *)
Definition starts_clean (s : jsstring) : Prop :=
  forall c rest, s = c :: rest -> isWhiteSpace c = false.

Definition ends_clean (s : jsstring) : Prop :=
  forall front c, s = front ++ [c] -> isWhiteSpace c = false.

(** No ['<'] of [s] has a ['>'] anywhere after it: nothing in [s] has the
    shape of a tag. *)
Definition tagless (s : jsstring) : Prop :=
  forall front back, s = front ++ LT :: back -> ~ In GT back.

(** The same format with lines ended by a carriage return and a line
    feed. *)
Definition formatted_response_crlf (t d c : jsstring) : jsstring :=
  js "TITLE:" ++ t ++ CR :: LF ::
  js "DESCRIPTION:" ++ d ++ CR :: LF ::
  js "CONTENT:" ++ c.

(* ================================================================== *)
(** * Strings: white space *)
(* ================================================================== *)

Lemma has_ws_run_sound (s : jsstring) :
  has_ws_run s = false -> no_whitespace_run s.
Proof.
  intros H pre; revert s H.
  induction pre as [| x pre IH]; intros s H a b post -> [Ha Hb].
  - cbn in H. rewrite Ha, Hb in H. discriminate.
  - cbn [app has_ws_run] in H.
    destruct (pre ++ a :: b :: post) as [| y rest] eqn:E.
    + destruct pre; discriminate.
    + apply orb_false_iff in H as [_ H].
      apply (IH (y :: rest) H a b post); [exact (eq_sym E) | split; assumption].
Qed.

Lemma no_whitespace_run_infix (x s y : jsstring) :
  no_whitespace_run (x ++ s ++ y) -> no_whitespace_run s.
Proof.
  intros H pre a b post -> Hab.
  apply (H (x ++ pre) a b (post ++ y)); [| exact Hab].
  rewrite <- !app_assoc. reflexivity.
Qed.

(** After a replaced run, the output goes on with a code unit that is not
    white space. *)
Lemma collapse_from_true_head (s : jsstring) :
  match collapse_from true s with
  | c :: _ => isWhiteSpace c = false
  | [] => True
  end.
Proof.
  induction s as [| c s IH]; cbn; [exact I |].
  destruct (isWhiteSpace c) eqn:Hc; [exact IH | exact Hc].
Qed.

Lemma collapse_from_no_run (s : jsstring) (in_run : bool) :
  has_ws_run (collapse_from in_run s) = false.
Proof.
  revert in_run; induction s as [| c s IH]; intro in_run; [reflexivity |].
  cbn [collapse_from]. destruct (isWhiteSpace c) eqn:Hc.
  - destruct in_run; [apply IH |].
    cbn [has_ws_run]. pose proof (collapse_from_true_head s) as Hh.
    specialize (IH true).
    destruct (collapse_from true s) as [| d rest]; [reflexivity |].
    rewrite Hh, andb_false_r. exact IH.
  - cbn [has_ws_run]. specialize (IH false).
    destruct (collapse_from false s) as [| d rest]; [reflexivity |].
    rewrite Hc. exact IH.
Qed.

Lemma skip_ws_suffix (s : jsstring) : exists x, s = x ++ skip_ws s.
Proof.
  induction s as [| c s (x & IH)]; [exists []; reflexivity |].
  cbn. destruct (isWhiteSpace c).
  - exists (c :: x). cbn. f_equal. exact IH.
  - exists []. reflexivity.
Qed.

Lemma trimEnd_prefix (s : jsstring) : exists y, s = trimEnd s ++ y.
Proof.
  induction s as [| c s (y & IH)]; [exists []; reflexivity |].
  unfold trimEnd in *. cbn [fold_right].
  destruct (fold_right _ [] s) as [| d rest].
  - destruct (isWhiteSpace c).
    + exists (c :: s). reflexivity.
    + exists s. reflexivity.
  - exists y. cbn. f_equal. exact IH.
Qed.

(** The cleaned text is an infix of the collapsed text. *)
Lemma clean_text_infix (text : jsstring) :
  exists x y, collapse_ws text = x ++ clean_text text ++ y.
Proof.
  unfold clean_text, trim, trimStart, slice0.
  destruct (skip_ws_suffix (collapse_ws text)) as (x & Hx).
  destruct (trimEnd_prefix (skip_ws (collapse_ws text))) as (y & Hy).
  exists x, (skipn 4000 (trimEnd (skip_ws (collapse_ws text))) ++ y).
  rewrite (app_assoc (firstn _ _)), firstn_skipn, <- Hy. exact Hx.
Qed.

Lemma clean_text_length (text : jsstring) : length (clean_text text) <= 4000.
Proof. unfold clean_text, slice0. apply firstn_le_length. Qed.

Lemma clean_text_no_whitespace_run (text : jsstring) :
  no_whitespace_run (clean_text text).
Proof.
  destruct (clean_text_infix text) as (x & y & E).
  apply (no_whitespace_run_infix x _ y). rewrite <- E.
  apply has_ws_run_sound, collapse_from_no_run.
Qed.

(* ================================================================== *)
(** * Strings: matching *)
(* ================================================================== *)

(** A successful search found its match at the start of some suffix. *)
Lemma search_sound {A : Type} (m : jsstring -> option A) (s : jsstring)
  (x : A) :
  search m s = Some x -> exists pre suf, s = pre ++ suf /\ m suf = Some x.
Proof.
  induction s as [| c s IH]; cbn.
  - destruct (m []) eqn:E; [| discriminate].
    intro H. injection H as ->. exists [], []. split; [reflexivity | exact E].
  - destruct (m (c :: s)) eqn:E.
    + intro H. injection H as ->. exists [], (c :: s).
      split; [reflexivity | exact E].
    + intro H. destruct (IH H) as (pre & suf & -> & Hm).
      exists (c :: pre), suf. split; [reflexivity | exact Hm].
Qed.

(** What a stripped prefix looks like. *)
Lemma strip_prefix_sound (eq : N -> N -> bool) (pat s r : jsstring) :
  strip_prefix eq pat s = Some r ->
  exists m, s = m ++ r /\ Forall2 (fun p c => eq p c = true) pat m.
Proof.
  revert s; induction pat as [| p pat IH]; intros s; cbn.
  - intro H. injection H as ->. exists []. split; [reflexivity | constructor].
  - destruct s as [| c s]; [discriminate |].
    destruct (eq p c) eqn:E; [| discriminate].
    intro H. destruct (IH s H) as (m & -> & Hm).
    exists (c :: m). split; [reflexivity | constructor; assumption].
Qed.

Lemma tag_rest_sound (s r : jsstring) :
  tag_rest s = Some r -> exists attrs, s = attrs ++ GT :: r.
Proof.
  induction s as [| c s IH]; cbn; [discriminate |].
  destruct (c =? GT)%N eqn:E.
  - intro H. injection H as ->. apply N.eqb_eq in E as ->.
    exists []. reflexivity.
  - intro H. destruct (IH H) as (attrs & ->). exists (c :: attrs). reflexivity.
Qed.

Lemma lazy_capture_sound (close : jsstring -> option jsstring)
  (s inner : jsstring) :
  lazy_capture close s = Some inner ->
  exists rest r, s = inner ++ rest /\ close rest = Some r.
Proof.
  revert inner; induction s as [| c s IH]; intro inner; cbn.
  - destruct (close []) eqn:E; [| discriminate].
    intro H. injection H as <-. exists [], j. split; [reflexivity | exact E].
  - destruct (close (c :: s)) eqn:E.
    + intro H. injection H as <-. exists (c :: s), j.
      split; [reflexivity | exact E].
    + destruct (lazy_capture close s) as [inner' |]; [| discriminate].
      cbn. intro H. injection H as <-.
      destruct (IH inner' eq_refl) as (rest & r & -> & Hc).
      exists rest, r. split; [reflexivity | exact Hc].
Qed.

(** Case folding touches letters only. *)
Lemma ci_eq_symbol (p c : N) : (p < 65)%N -> ci_eq p c = true -> c = p.
Proof.
  intro Hp. unfold ci_eq, canonicalize.
  assert (Ep : ((97 <=? p) && (p <=? 122))%N = false).
  { apply andb_false_iff. left. apply N.leb_gt. lia. }
  rewrite Ep.
  destruct ((97 <=? c) && (c <=? 122))%N eqn:E; intro H;
    apply N.eqb_eq in H; [| congruence].
  apply andb_true_iff in E as [E1 E2].
  apply N.leb_le in E1, E2. lia.
Qed.

Lemma ci_eq_letter (p c : N) :
  (97 <= p <= 122)%N -> ci_eq p c = true -> c = p \/ c = (p - 32)%N.
Proof.
  intros Hp. unfold ci_eq, canonicalize.
  assert (Ep : ((97 <=? p) && (p <=? 122))%N = true).
  { apply andb_true_iff. split; apply N.leb_le; lia. }
  rewrite Ep.
  destruct ((97 <=? c) && (c <=? 122))%N eqn:E; intro H;
    apply N.eqb_eq in H.
  - apply andb_true_iff in E as [E1 E2]. apply N.leb_le in E1, E2.
    left. lia.
  - right. congruence.
Qed.

Lemma is_1_or_2_true (d : N) : is_1_or_2 d = true -> d = 49%N \/ d = 50%N.
Proof.
  unfold is_1_or_2. intro H. apply orb_true_iff in H as [H | H];
    apply N.eqb_eq in H; [left | right]; exact H.
Qed.

(** A match of the title pattern exhibits the heading shape. *)
Lemma heading_open_sound (s r : jsstring) :
  heading_open s = Some r ->
  exists h d, s = LT :: h :: d :: r /\
              (h = 104%N \/ h = 72%N) /\ (d = 49%N \/ d = 50%N).
Proof.
  unfold heading_open.
  destruct (strip_prefix ci_eq (js "<h") s) as [[| d r0] |] eqn:Hs;
    try discriminate.
  destruct (is_1_or_2 d) eqn:Hd; [| discriminate].
  intro H. injection H as ->.
  apply strip_prefix_sound in Hs as (m & -> & HF).
  change (js "<h") with [LT; 104%N] in HF.
  inversion HF as [| p1 c1 l1 m1 H1 HF1]; subst.
  inversion HF1 as [| p2 c2 l2 m2 H2 HF2]; subst.
  inversion HF2; subst.
  apply ci_eq_symbol in H1; [| unfold LT; lia].
  apply ci_eq_letter in H2; [| lia].
  exists c2, d. subst c1. split; [reflexivity |].
  split; [exact H2 | apply is_1_or_2_true; exact Hd].
Qed.

Lemma heading_close_sound (s r : jsstring) :
  heading_close s = Some r ->
  exists h d, s = LT :: 47%N :: h :: d :: GT :: r /\
              (h = 104%N \/ h = 72%N) /\ (d = 49%N \/ d = 50%N).
Proof.
  unfold heading_close.
  destruct (strip_prefix ci_eq (js "</h") s) as [[| d r0] |] eqn:Hs;
    try discriminate.
  destruct (is_1_or_2 d) eqn:Hd; [| discriminate].
  intro Hg.
  apply strip_prefix_sound in Hs as (m & -> & HF).
  apply strip_prefix_sound in Hg as (g & -> & HG).
  change (js "</h") with [LT; 47%N; 104%N] in HF.
  inversion HF as [| p1 c1 l1 m1 H1 HF1]; subst.
  inversion HF1 as [| p2 c2 l2 m2 H2 HF2]; subst.
  inversion HF2 as [| p3 c3 l3 m3 H3 HF3]; subst.
  inversion HF3; subst.
  inversion HG as [| p4 c4 l4 m4 H4 HG1]; subst.
  inversion HG1; subst.
  apply ci_eq_symbol in H1; [| unfold LT; lia].
  apply ci_eq_symbol in H2; [| lia].
  apply ci_eq_letter in H3; [| lia].
  apply ci_eq_symbol in H4; [| unfold GT; lia].
  exists c3, d. subst c1 c2 c4. split; [reflexivity |].
  split; [exact H3 | apply is_1_or_2_true; exact Hd].
Qed.

Lemma titleMatch_sound (s inner : jsstring) :
  titleMatch s = Some inner -> heading_shape_in s.
Proof.
  unfold titleMatch. intro H.
  apply search_sound in H as (pre & suf & -> & Hm).
  unfold element_at in Hm.
  destruct (heading_open suf) as [r |] eqn:Ho; [| discriminate].
  destruct (tag_rest r) as [body |] eqn:Ht; [| discriminate].
  apply heading_open_sound in Ho as (h & d & -> & Hh & Hd).
  apply tag_rest_sound in Ht as (attrs & ->).
  apply lazy_capture_sound in Hm as (rest & r' & -> & Hc).
  apply heading_close_sound in Hc as (h' & d' & -> & Hh' & Hd').
  exists pre, h, d, attrs, inner, h', d', r'.
  split; [| repeat split; assumption].
  cbn. rewrite <- ?app_assoc. reflexivity.
Qed.

Lemma descMatch_sound (s inner : jsstring) :
  descMatch s = Some inner -> paragraph_shape_in s.
Proof.
  unfold descMatch. intro H.
  apply search_sound in H as (pre & suf & -> & Hm).
  unfold element_at in Hm.
  destruct (strip_prefix ci_eq (js "<p") suf) as [r |] eqn:Ho;
    [| discriminate].
  destruct (tag_rest r) as [body |] eqn:Ht; [| discriminate].
  apply strip_prefix_sound in Ho as (m & -> & HF).
  apply tag_rest_sound in Ht as (attrs & ->).
  apply lazy_capture_sound in Hm as (rest & r' & -> & Hc).
  apply strip_prefix_sound in Hc as (g & -> & HG).
  change (js "<p") with [LT; 112%N] in HF.
  change (js "</p>") with [LT; 47%N; 112%N; GT] in HG.
  inversion HF as [| p1 c1 l1 m1 H1 HF1]; subst.
  inversion HF1 as [| p2 c2 l2 m2 H2 HF2]; subst.
  inversion HF2; subst.
  inversion HG as [| q1 e1 k1 n1 G1 HG1]; subst.
  inversion HG1 as [| q2 e2 k2 n2 G2 HG2]; subst.
  inversion HG2 as [| q3 e3 k3 n3 G3 HG3]; subst.
  inversion HG3 as [| q4 e4 k4 n4 G4 HG4]; subst.
  inversion HG4; subst.
  apply ci_eq_symbol in H1; [| unfold LT; lia].
  apply ci_eq_letter in H2; [| lia].
  apply ci_eq_symbol in G1; [| unfold LT; lia].
  apply ci_eq_symbol in G2; [| lia].
  apply ci_eq_letter in G3; [| lia].
  apply ci_eq_symbol in G4; [| unfold GT; lia].
  subst c1 e1 e2 e4.
  exists pre, c2, attrs, inner, e3, r'.
  split; [| split; assumption].
  cbn. rewrite <- ?app_assoc. reflexivity.
Qed.

(** Without a ['<'] there is no shape of either kind. *)
Lemma heading_shape_has_LT (s : jsstring) :
  heading_shape_in s -> In LT s.
Proof.
  intros (pre & h & d & attrs & inner & h' & d' & post & -> & _).
  apply in_or_app. right. left. reflexivity.
Qed.

Lemma paragraph_shape_has_LT (s : jsstring) :
  paragraph_shape_in s -> In LT s.
Proof.
  intros (pre & p & attrs & inner & p' & post & -> & _).
  apply in_or_app. right. left. reflexivity.
Qed.

(** Conversely, the patterns match wherever a shape is present: the
    extraction is [null] exactly on the contents without a shape. *)
Lemma search_complete {A : Type} (m : jsstring -> option A)
  (pre s : jsstring) :
  m s <> None -> search m (pre ++ s) <> None.
Proof.
  intro H. induction pre as [| c pre IH]; cbn [app].
  - destruct s; cbn; destruct (m _); congruence.
  - cbn. destruct (m (c :: pre ++ s)); [discriminate | exact IH].
Qed.

Lemma tag_rest_complete (attrs rest : jsstring) :
  exists skipped, tag_rest (attrs ++ GT :: rest) = Some (skipped ++ rest).
Proof.
  induction attrs as [| c attrs (skipped & IH)]; cbn [app tag_rest].
  - exists []. reflexivity.
  - destruct (c =? GT)%N.
    + exists (attrs ++ [GT]). rewrite <- app_assoc. reflexivity.
    + exists skipped. exact IH.
Qed.

Lemma lazy_capture_complete (close : jsstring -> option jsstring)
  (x rest : jsstring) :
  close rest <> None -> lazy_capture close (x ++ rest) <> None.
Proof.
  intro H. induction x as [| c x IH]; cbn [app].
  - destruct rest; cbn; destruct (close _); congruence.
  - cbn. destruct (close (c :: x ++ rest)); [discriminate |].
    destruct (lazy_capture close (x ++ rest)); [discriminate | congruence].
Qed.

Lemma titleMatch_complete (s : jsstring) :
  heading_shape_in s -> titleMatch s <> None.
Proof.
  intros (pre & h & d & attrs & inner & h' & d' & post & -> & Hh & Hh' & Hd & Hd').
  unfold titleMatch. apply search_complete. unfold element_at.
  assert (Ho : heading_open ([LT; h; d] ++ attrs ++ [GT] ++ inner
                             ++ [LT; 47%N; h'; d'; GT] ++ post)
               = Some (attrs ++ [GT] ++ inner
                       ++ [LT; 47%N; h'; d'; GT] ++ post)).
  { destruct Hh as [-> | ->], Hd as [-> | ->]; reflexivity. }
  rewrite Ho.
  destruct (tag_rest_complete attrs
              (inner ++ [LT; 47%N; h'; d'; GT] ++ post)) as (skipped & Ht).
  cbn [app] in Ht |- *. rewrite Ht. rewrite app_assoc.
  apply lazy_capture_complete.
  destruct Hh' as [-> | ->], Hd' as [-> | ->]; discriminate.
Qed.

Lemma descMatch_complete (s : jsstring) :
  paragraph_shape_in s -> descMatch s <> None.
Proof.
  intros (pre & p & attrs & inner & p' & post & -> & Hp & Hp').
  unfold descMatch. apply search_complete. unfold element_at.
  assert (Ho : strip_prefix ci_eq (js "<p")
                 ([LT; p] ++ attrs ++ [GT] ++ inner
                  ++ [LT; 47%N; p'; GT] ++ post)
               = Some (attrs ++ [GT] ++ inner ++ [LT; 47%N; p'; GT] ++ post)).
  { destruct Hp as [-> | ->]; reflexivity. }
  rewrite Ho.
  destruct (tag_rest_complete attrs
              (inner ++ [LT; 47%N; p'; GT] ++ post)) as (skipped & Ht).
  cbn [app] in Ht |- *. rewrite Ht. rewrite app_assoc.
  apply lazy_capture_complete.
  destruct Hp' as [-> | ->]; discriminate.
Qed.

Lemma extractedTitle_null_iff (s : jsstring) :
  extractedTitle s = None <-> ~ heading_shape_in s.
Proof.
  unfold extractedTitle, extracted. split.
  - intros H Hel. apply (titleMatch_complete s Hel).
    destruct (titleMatch s); [discriminate | reflexivity].
  - intro Hno. destruct (titleMatch s) as [inner |] eqn:Hm; [| reflexivity].
    exfalso. apply Hno. exact (titleMatch_sound _ _ Hm).
Qed.

Lemma extractedDesc_null_iff (s : jsstring) :
  extractedDesc s = None <-> ~ paragraph_shape_in s.
Proof.
  unfold extractedDesc, extracted. split.
  - intros H Hel. apply (descMatch_complete s Hel).
    destruct (descMatch s); [discriminate | reflexivity].
  - intro Hno. destruct (descMatch s) as [inner |] eqn:Hm; [| reflexivity].
    exfalso. apply Hno. exact (descMatch_sound _ _ Hm).
Qed.

(* ================================================================== *)
(** * Strings: markers and lines *)
(* ================================================================== *)

Lemma ci_eq_refl (c : N) : ci_eq c c = true.
Proof. unfold ci_eq. apply N.eqb_refl. Qed.

Lemma strip_prefix_self (pat r : jsstring) :
  strip_prefix ci_eq pat (pat ++ r) = Some r.
Proof.
  induction pat as [| p pat IH]; cbn; [reflexivity |].
  rewrite ci_eq_refl. exact IH.
Qed.

Lemma strip_prefix_complete (pat mid post : jsstring) :
  Forall2 (fun p c => ci_eq p c = true) pat mid ->
  strip_prefix ci_eq pat (mid ++ post) = Some post.
Proof.
  induction 1 as [| p c pat mid Hpc _ IH]; cbn; [reflexivity |].
  rewrite Hpc. exact IH.
Qed.

Lemma search_here {A : Type} (m : jsstring -> option A) (s : jsstring)
  (x : A) :
  m s = Some x -> search m s = Some x.
Proof. intro H. destruct s; cbn; rewrite H; reflexivity. Qed.

Lemma search_next {A : Type} (m : jsstring -> option A) (c : N)
  (s : jsstring) :
  m (c :: s) = None -> search m (c :: s) = search m s.
Proof. intro H. cbn. rewrite H. reflexivity. Qed.

Lemma search_none_cons {A : Type} (m : jsstring -> option A) (c : N)
  (s : jsstring) :
  search m (c :: s) = None -> m (c :: s) = None /\ search m s = None.
Proof.
  cbn. destruct (m (c :: s)); [discriminate |]. intro H. split; trivial.
Qed.

Lemma search_none_nil {A : Type} (m : jsstring -> option A) :
  search m [] = None -> m [] = None.
Proof. cbn. destruct (m []); [discriminate | reflexivity]. Qed.

(** [mentions] finds every occurrence. *)
Lemma mentions_complete (pat pre mid post : jsstring) :
  Forall2 (fun p c => ci_eq p c = true) pat mid ->
  mentions pat (pre ++ mid ++ post) = true.
Proof.
  intro HF. unfold mentions.
  induction pre as [| c pre IH].
  - cbn [app]. rewrite (search_here _ _ post); [reflexivity |].
    apply strip_prefix_complete. exact HF.
  - cbn [app search].
    destruct (strip_prefix ci_eq pat (c :: pre ++ mid ++ post));
      [reflexivity | exact IH].
Qed.

Lemma mentions_false (pat s : jsstring) :
  mentions pat s = false -> search (strip_prefix ci_eq pat) s = None.
Proof.
  unfold mentions. destruct (search _ s); [discriminate | reflexivity].
Qed.

(** A search that finds no marker finds no capture either. *)
Lemma search_map_none {A : Type} (f : jsstring -> A) (pat s : jsstring) :
  search (strip_prefix ci_eq pat) s = None ->
  search (fun x => option_map f (strip_prefix ci_eq pat x)) s = None.
Proof.
  induction s as [| c s IH]; intro H.
  - apply search_none_nil in H. cbn. rewrite H. reflexivity.
  - apply search_none_cons in H as [H1 H2].
    rewrite search_next; [exact (IH H2) | rewrite H1; reflexivity].
Qed.

(** A marker that holds no line feed does not match across one. *)
Lemma strip_prefix_line_end (pat a b : jsstring) :
  Forall (fun p => ci_eq p LF = false) pat ->
  strip_prefix ci_eq pat a = None ->
  strip_prefix ci_eq pat (a ++ LF :: b) = None.
Proof.
  intro HF; revert a.
  induction HF as [| p pat Hp _ IH]; intros a; cbn; [discriminate |].
  destruct a as [| c a]; cbn.
  - intros _. rewrite Hp. reflexivity.
  - destruct (ci_eq p c); [apply IH | reflexivity].
Qed.

Lemma search_past_line {A : Type} (f : jsstring -> A) (pat a b : jsstring) :
  Forall (fun p => ci_eq p LF = false) pat ->
  search (strip_prefix ci_eq pat) a = None ->
  search (fun x => option_map f (strip_prefix ci_eq pat x)) (a ++ LF :: b) =
  search (fun x => option_map f (strip_prefix ci_eq pat x)) b.
Proof.
  intro HF. induction a as [| c a IH]; intro H.
  - apply search_none_nil in H. cbn [app].
    apply search_next.
    pose proof (strip_prefix_line_end pat [] b HF H) as E.
    cbn [app] in E. rewrite E. reflexivity.
  - apply search_none_cons in H as [H1 H2]. cbn [app].
    rewrite search_next; [exact (IH H2) |].
    pose proof (strip_prefix_line_end pat (c :: a) b HF H1) as E.
    cbn [app] in E. rewrite E. reflexivity.
Qed.

(** A prefix at every position of which the marker clashes is skipped. *)
Lemma clash_strip_prefix (pat s t : jsstring) :
  clash pat s = true -> strip_prefix ci_eq pat (s ++ t) = None.
Proof.
  revert s; induction pat as [| p pat IH]; intros s; cbn; [discriminate |].
  destruct s as [| c s]; cbn; [discriminate |].
  destruct (ci_eq p c); [apply IH | reflexivity].
Qed.

Lemma search_past_prefix {A : Type} (f : jsstring -> A)
  (pat pre t : jsstring) :
  clash_throughout pat pre = true ->
  search (fun x => option_map f (strip_prefix ci_eq pat x)) (pre ++ t) =
  search (fun x => option_map f (strip_prefix ci_eq pat x)) t.
Proof.
  induction pre as [| c pre IH]; cbn [clash_throughout app];
    [reflexivity |].
  intro H. apply andb_true_iff in H as [H1 H2].
  rewrite search_next; [exact (IH H2) |].
  pose proof (clash_strip_prefix pat (c :: pre) t H1) as E.
  cbn [app] in E. rewrite E. reflexivity.
Qed.

(** White space in front of a segment, and the end of its line. *)
Lemma skip_ws_app (t x : jsstring) :
  skip_ws t <> [] -> skip_ws (t ++ x) = skip_ws t ++ x.
Proof.
  induction t as [| c t IH]; cbn [app skip_ws]; [congruence |].
  destruct (isWhiteSpace c); [exact IH | reflexivity].
Qed.

Lemma skip_ws_Forall (P : N -> Prop) (t : jsstring) :
  Forall P t -> Forall P (skip_ws t).
Proof.
  induction 1 as [| c t Hc Ht IH]; cbn [skip_ws]; [constructor |].
  destruct (isWhiteSpace c); [exact IH | constructor; assumption].
Qed.

Lemma rest_of_line_line (u x : jsstring) :
  Forall (fun c => isLineTerminator c = false) u ->
  rest_of_line (u ++ LF :: x) = u.
Proof.
  induction 1 as [| c u Hc _ IH]; cbn [app rest_of_line]; [reflexivity |].
  rewrite Hc, IH. reflexivity.
Qed.

Lemma capture_or_nonempty (c fallback : jsstring) :
  c <> [] -> capture_or (Some c) fallback = c.
Proof. destruct c; [congruence | reflexivity]. Qed.

(* ================================================================== *)
(** * Parsing the model's response *)
(* ================================================================== *)

Lemma marker_has_no_line_feed (pat : jsstring) :
  forallb (fun p => negb (ci_eq p LF)) pat = true ->
  Forall (fun p => ci_eq p LF = false) pat.
Proof.
  intro H. apply Forall_forall. intros p Hp.
  rewrite forallb_forall in H. apply negb_true_iff. apply H. exact Hp.
Qed.

Lemma match_line_at_marker (marker t x : jsstring) :
  one_line t -> skip_ws t <> [] ->
  search (fun s => option_map (fun r => rest_of_line (skip_ws r))
                              (strip_prefix ci_eq marker s))
         (marker ++ t ++ LF :: x)
  = Some (skip_ws t).
Proof.
  intros Hline Hne. apply search_here.
  rewrite strip_prefix_self. cbn [option_map].
  rewrite skip_ws_app by exact Hne.
  rewrite rest_of_line_line; [reflexivity |].
  apply skip_ws_Forall. exact Hline.
Qed.

(** On a formatted response whose segments do not themselves hold a later
    marker, the three captures are the segments from their first code unit
    that is not white space; nothing is cut at their end. *)
Lemma parse_formatted_response (t d c : jsstring) :
  one_line t -> one_line d ->
  skip_ws t <> [] -> skip_ws d <> [] -> skip_ws c <> [] ->
  mentions (js "DESCRIPTION:") t = false ->
  mentions (js "CONTENT:") t = false ->
  mentions (js "CONTENT:") d = false ->
  parse_response (formatted_response t d c) =
    {| title := skip_ws t; description := skip_ws d; content := skip_ws c |}.
Proof.
  intros Lt Ld Nt Nd Nc Mdt Mct Mcd.
  apply mentions_false in Mdt, Mct, Mcd.
  unfold parse_response, formatted_response, match_line, match_rest.
  rewrite (match_line_at_marker (js "TITLE:") t _ Lt Nt).
  rewrite (search_past_prefix _ (js "DESCRIPTION:") (js "TITLE:"))
    by reflexivity.
  rewrite (search_past_line _ (js "DESCRIPTION:") t)
    by (try apply marker_has_no_line_feed; first [reflexivity | assumption]).
  rewrite (match_line_at_marker (js "DESCRIPTION:") d _ Ld Nd).
  rewrite (search_past_prefix _ (js "CONTENT:") (js "TITLE:")) by reflexivity.
  rewrite (search_past_line _ (js "CONTENT:") t)
    by (try apply marker_has_no_line_feed; first [reflexivity | assumption]).
  rewrite (search_past_prefix _ (js "CONTENT:") (js "DESCRIPTION:"))
    by reflexivity.
  rewrite (search_past_line _ (js "CONTENT:") d)
    by (try apply marker_has_no_line_feed; first [reflexivity | assumption]).
  rewrite (search_here _ _ (skip_ws c))
    by (rewrite strip_prefix_self; reflexivity).
  rewrite !capture_or_nonempty by assumption.
  reflexivity.
Qed.

(** On a response that holds none of the markers, every field takes its
    fallback. *)
Lemma parse_unformatted_response (text : jsstring) :
  mentions (js "TITLE:") text = false ->
  mentions (js "DESCRIPTION:") text = false ->
  mentions (js "CONTENT:") text = false ->
  parse_response text =
    {| title := default_title; description := default_description;
       content := text |}.
Proof.
  intros Mt Md Mc. apply mentions_false in Mt, Md, Mc.
  unfold parse_response, match_line, match_rest.
  rewrite !search_map_none by assumption. reflexivity.
Qed.

(* ================================================================== *)
(** * Lists: order-preserving selection *)
(* ================================================================== *)

Lemma subsequence_refl {A : Type} (l : list A) : subsequence l l.
Proof. induction l; [constructor | apply subsequence_keep; assumption]. Qed.

Lemma subsequence_filter {A : Type} (f : A -> bool) (l : list A) :
  subsequence (filter f l) l.
Proof.
  induction l as [| x l IH]; cbn; [constructor |].
  destruct (f x); [apply subsequence_keep | apply subsequence_skip]; exact IH.
Qed.

Lemma subsequence_firstn {A : Type} (n : nat) (l : list A) :
  subsequence (firstn n l) l.
Proof.
  revert n; induction l as [| x l IH]; intros [| n]; cbn.
  - constructor.
  - constructor.
  - apply subsequence_skip. apply (IH 0).
  - apply subsequence_keep. apply IH.
Qed.

Lemma subsequence_trans {A : Type} (l1 l2 l3 : list A) :
  subsequence l1 l2 -> subsequence l2 l3 -> subsequence l1 l3.
Proof.
  intros H12 H23; revert l1 H12.
  induction H23 as [| x l2 l3 H23 IH | x l2 l3 H23 IH]; intros l1 H12.
  - exact H12.
  - apply subsequence_skip. apply IH. exact H12.
  - inversion H12; subst.
    + apply subsequence_skip. apply IH. assumption.
    + apply subsequence_keep. apply IH. assumption.
Qed.

(* ================================================================== *)
(** * Runs of the script *)
(* ================================================================== *)

Lemma fetched_urls_app (a b : list event) :
  fetched_urls (a ++ b) = fetched_urls a ++ fetched_urls b.
Proof. apply flat_map_app. Qed.

Lemma chat_requests_app (a b : list event) :
  chat_requests (a ++ b) = chat_requests a ++ chat_requests b.
Proof. apply flat_map_app. Qed.

Lemma posts_app (a b : list event) :
  posts (a ++ b) = posts a ++ posts b.
Proof. apply flat_map_app. Qed.

Lemma fetched_urls_cons (e : event) (tr : list event) :
  fetched_urls (e :: tr) =
    match e with Fetch u => [u] | _ => [] end ++ fetched_urls tr.
Proof. reflexivity. Qed.

Lemma chat_requests_cons (e : event) (tr : list event) :
  chat_requests (e :: tr) =
    match e with Chat r => [r] | _ => [] end ++ chat_requests tr.
Proof. reflexivity. Qed.

Lemma posts_cons (e : event) (tr : list event) :
  posts (e :: tr) =
    match e with Post i b => [(i, b)] | _ => [] end ++ posts tr.
Proof. reflexivity. Qed.

Lemma fetched_urls_nil : fetched_urls [] = [].
Proof. reflexivity. Qed.

Lemma chat_requests_nil : chat_requests [] = [].
Proof. reflexivity. Qed.

Lemma posts_nil : posts [] = [].
Proof. reflexivity. Qed.

Create Rewrite HintDb events.
#[export] Hint Rewrite fetched_urls_app chat_requests_app posts_app
  fetched_urls_cons chat_requests_cons posts_cons
  fetched_urls_nil chat_requests_nil posts_nil app_nil_r : events.

Section Runs.

Context {World Body : Type} (env : Collaborators World Body).

(** [googleSearch] always returns; it scrapes, prompts and posts nothing. *)
Lemma googleSearch_run (q : jsstring) (w : World) :
  exists links w' tr,
    googleSearch env q w = (Returned links, w', tr) /\ quiet tr.
Proof.
  unfold googleSearch, try_catch, bind, call, ret, log, quiet.
  destruct (serper_search env q w) as [[organic | e] w1]; cbn;
    eexists _, _, _; repeat split; reflexivity.
Qed.

(** [scrapeArticle] always returns, after one fetch of its URL. *)
Lemma scrapeArticle_run (url : jsstring) (w : World) :
  exists text w' tr,
    scrapeArticle env url w = (Returned text, w', tr) /\
    fetched_urls tr = [url] /\ chat_requests tr = [] /\ posts tr = [].
Proof.
  unfold scrapeArticle, try_catch, bind, call, lift, ret, log.
  destruct (get_page env url w) as [[data | e] w1]; cbn.
  - destruct (cheerio_load env data) as [dollar | e]; cbn;
      eexists _, _, _; repeat split; reflexivity.
  - eexists _, _, _; repeat split; reflexivity.
Qed.

(** Scraping a list of links fetches exactly these links, in order. *)
Lemma scrape_all_run (links : list jsstring) (w : World) :
  exists texts w' tr,
    promise_all_map (scrapeArticle env) links w = (Returned texts, w', tr) /\
    fetched_urls tr = links /\ chat_requests tr = [] /\ posts tr = [].
Proof.
  revert w; induction links as [| url links IH]; intro w.
  - exists [], w, []. repeat split; reflexivity.
  - destruct (scrapeArticle_run url w) as (text & w1 & t1 & E1 & F1 & C1 & P1).
    destruct (IH w1) as (texts & w2 & t2 & E2 & F2 & C2 & P2).
    exists (text :: texts), w2, (t1 ++ t2 ++ []).
    cbn [promise_all_map]. unfold bind at 1. rewrite E1.
    unfold bind at 1. rewrite E2. cbn.
    autorewrite with events. rewrite F1, F2, C1, C2, P1, P2.
    repeat split; reflexivity.
Qed.

(** [rewriteWithAI] always returns, after one chat request built from the
    original and the URLs. *)
Lemma rewriteWithAI_run (original : jsstring) (refs urls : list jsstring)
  (w : World) :
  exists ai w' tr,
    rewriteWithAI env original refs urls w = (Returned ai, w', tr) /\
    fetched_urls tr = [] /\
    chat_requests tr = [rewrite_request original urls] /\
    posts tr = [].
Proof.
  unfold rewriteWithAI, try_catch, bind, call, ret, log.
  destruct (chatCompletion env _ w) as [[text | e] w1]; cbn;
    eexists _, _, _; repeat split; reflexivity.
Qed.

(** [publishArticle] posts once: the two extractions, the content and the
    references it was given. *)
Lemma publishArticle_events (id : N) (aiData : jsstring + RewriteResult)
  (refs : list jsstring) (w : World) :
  let finalContent := match aiData with inl s => s | inr r => content r end in
  posts (events_of (publishArticle env id aiData refs w)) =
    [(id, {| p_title := extractedTitle finalContent;
             p_description := extractedDesc finalContent;
             p_content := finalContent;
             p_references := refs |})] /\
  fetched_urls (events_of (publishArticle env id aiData refs w)) = [] /\
  chat_requests (events_of (publishArticle env id aiData refs w)) = [].
Proof.
  unfold publishArticle, bind, call, log, events_of.
  destruct (post_ai_version env id _ w) as [[[] | e] w1]; cbn;
    repeat split; reflexivity.
Qed.

(** The same facts, read off a given run. *)
Lemma fetchLatestArticle_events (w : World) (o : outcome SourceArticle)
  (w1 : World) (t1 : list event) :
  fetchLatestArticle env w = (o, w1, t1) -> t1 = [GetLatest].
Proof.
  unfold fetchLatestArticle, call.
  destruct (get_latest env w) as [o' w']. intro H. injection H as _ _ <-.
  reflexivity.
Qed.

Lemma googleSearch_quiet (q : jsstring) (w : World)
  (o : outcome (list jsstring)) (w1 : World) (t : list event) :
  googleSearch env q w = (o, w1, t) -> quiet t.
Proof.
  intro H. destruct (googleSearch_run q w) as (l & w' & t' & E & Hq).
  rewrite H in E. injection E as _ _ ->. exact Hq.
Qed.

Lemma scrape_all_events (links : list jsstring) (w : World)
  (o : outcome (list jsstring)) (w1 : World) (t : list event) :
  promise_all_map (scrapeArticle env) links w = (o, w1, t) ->
  fetched_urls t = links /\ chat_requests t = [] /\ posts t = [].
Proof.
  intro H. destruct (scrape_all_run links w) as (l & w' & t' & E & Hq).
  rewrite H in E. injection E as _ _ ->. exact Hq.
Qed.

Lemma rewriteWithAI_events (original : jsstring) (refs urls : list jsstring)
  (w : World) (o : outcome (option RewriteResult)) (w1 : World)
  (t : list event) :
  rewriteWithAI env original refs urls w = (o, w1, t) ->
  fetched_urls t = [] /\
  chat_requests t = [rewrite_request original urls] /\
  posts t = [].
Proof.
  intro H.
  destruct (rewriteWithAI_run original refs urls w) as (l & w' & t' & E & Hq).
  rewrite H in E. injection E as _ _ ->. exact Hq.
Qed.

End Runs.

Lemma In_fetched_urls (u : jsstring) (tr : list event) :
  In (Fetch u) tr <-> In u (fetched_urls tr).
Proof.
  unfold fetched_urls. rewrite in_flat_map. split.
  - intro H. exists (Fetch u). split; [exact H | left; reflexivity].
  - intros (e & He & Hu). destruct e; cbn in Hu; try contradiction.
    destruct Hu as [-> | []]. exact He.
Qed.

Lemma In_chat_requests (r : chat_request) (tr : list event) :
  In (Chat r) tr <-> In r (chat_requests tr).
Proof.
  unfold chat_requests. rewrite in_flat_map. split.
  - intro H. exists (Chat r). split; [exact H | left; reflexivity].
  - intros (e & He & Hu). destruct e; cbn in Hu; try contradiction.
    destruct Hu as [-> | []]. exact He.
Qed.

Lemma In_posts (id : N) (body : payload) (tr : list event) :
  In (Post id body) tr <-> In (id, body) (posts tr).
Proof.
  unfold posts. rewrite in_flat_map. split.
  - intro H. exists (Post id body). split; [exact H | left; reflexivity].
  - intros (e & He & Hu). destruct e; cbn in Hu; try contradiction.
    destruct Hu as [Hu | []]. injection Hu as -> ->. exact He.
Qed.

(** Rewrites the projections of an explicit list of events. *)
Ltac project_events :=
  autorewrite with events; cbn [app]; autorewrite with events.

Section Pipeline.

Context {World Body : Type} (env : Collaborators World Body).

(** C5.  A run in which the article is fetched and the search stage
    collects fewer than two links stops there: its events are the two
    first stages' and the line saying that links are missing; no page is
    fetched for scraping, no chat request is sent, nothing is posted. *)
Theorem main_aborts_without_two_links
  (w : World) (article : SourceArticle) (w1 : World) (t1 : list event)
  (links : list jsstring) (w2 : World) (t2 : list event) :
  fetchLatestArticle env w = (Returned article, w1, t1) ->
  googleSearch env (art_title article) w1 = (Returned links, w2, t2) ->
  length links < 2 ->
  events_of (main env w) =
    Log LogFetching :: t1 ++ Log LogSearching :: t2 ++ [Log LogNotEnoughLinks]
  /\ (forall url, ~ In (Fetch url) (events_of (main env w)))
  /\ (forall req, ~ In (Chat req) (events_of (main env w)))
  /\ (forall id body, ~ In (Post id body) (events_of (main env w))).
Proof.
  intros Hf Hs Hlen.
  assert (Hev : events_of (main env w) =
    Log LogFetching :: t1 ++ Log LogSearching :: t2 ++ [Log LogNotEnoughLinks]).
  { unfold main, try_catch, bind, events_of. cbn [log].
    rewrite Hf, Hs. apply Nat.ltb_lt in Hlen. rewrite Hlen. reflexivity. }
  destruct (googleSearch_run env (art_title article) w1)
    as (links' & w2' & t2' & Hs' & Hq1 & Hq2 & Hq3).
  rewrite Hs in Hs'. injection Hs' as <- <- <-.
  assert (Ht1 : t1 = [GetLatest]).
  { unfold fetchLatestArticle, call in Hf.
    destruct (get_latest env w) as [o w']. injection Hf as _ _ <-.
    reflexivity. }
  subst t1. rewrite Hev. split; [reflexivity |].
  split; [| split].
  - intros url H. apply In_fetched_urls in H. revert H.
    project_events. rewrite Hq1. exact (fun H => H).
  - intros req H. apply In_chat_requests in H. revert H.
    project_events. rewrite Hq2. exact (fun H => H).
  - intros id body H. apply In_posts in H. revert H.
    project_events. rewrite Hq3. exact (fun H => H).
Qed.

(** The events of [main] once the article is fetched and at least two
    links are collected: scraping, the chat request, and what follows the
    rewriter's answer. *)
Lemma main_events_with_links
  (w : World) (article : SourceArticle) (w1 : World) (t1 : list event)
  (links : list jsstring) (w2 : World) (t2 : list event)
  (texts : list jsstring) (w3 : World) (t3 : list event)
  (ai : option RewriteResult) (w4 : World) (t4 : list event) :
  fetchLatestArticle env w = (Returned article, w1, t1) ->
  googleSearch env (art_title article) w1 = (Returned links, w2, t2) ->
  2 <= length links ->
  promise_all_map (scrapeArticle env) links w2 = (Returned texts, w3, t3) ->
  rewriteWithAI env (art_content article) texts links w3
    = (Returned ai, w4, t4) ->
  exists tail,
    events_of (main env w) =
      Log LogFetching :: t1 ++ Log LogSearching :: t2 ++
      Log LogScraping :: t3 ++ Log LogGenerating :: t4 ++ tail /\
    fetched_urls tail = [] /\ chat_requests tail = [] /\
    match ai with
    | Some r =>
        match content r with
        | [] => posts tail = []
        | _ :: _ =>
            posts tail =
              [(art_id article,
                {| p_title := extractedTitle (content r);
                   p_description := extractedDesc (content r);
                   p_content := content r;
                   p_references := links |})]
        end
    | None => posts tail = []
    end.
Proof.
  intros Hf Hs Hlen Hscrape Hai.
  unfold main, try_catch, bind, events_of. cbn [log].
  rewrite Hf, Hs.
  assert (Hlt : (length links <? 2) = false) by (apply Nat.ltb_ge; exact Hlen).
  rewrite Hlt, Hscrape, Hai.
  destruct ai as [r |].
  - destruct (content r) as [| c rest] eqn:Hc.
    + eexists. cbn. split; [reflexivity |]. repeat split; reflexivity.
    + pose proof (publishArticle_events env (art_id article) (inr r) links w4)
        as (Hp & Hpf & Hpc).
      cbn zeta in Hp. unfold events_of in Hp, Hpf, Hpc. rewrite Hc in Hp.
      destruct (publishArticle env (art_id article) (inr r) links w4)
        as [[[[] | e] w5] t5]; cbn [snd] in Hp, Hpf, Hpc; cbn;
        repeat (rewrite <- app_assoc || rewrite <- app_comm_cons);
        (eexists; split; [reflexivity |]); project_events;
        rewrite ?Hp, ?Hpf, ?Hpc; repeat split; reflexivity.
  - eexists. cbn. split; [reflexivity |]. repeat split; reflexivity.
Qed.

(** The events of [main] when fewer than two links are collected. *)
Lemma main_events_few_links
  (w : World) (article : SourceArticle) (w1 : World) (t1 : list event)
  (links : list jsstring) (w2 : World) (t2 : list event) :
  fetchLatestArticle env w = (Returned article, w1, t1) ->
  googleSearch env (art_title article) w1 = (Returned links, w2, t2) ->
  length links < 2 ->
  events_of (main env w) =
    Log LogFetching :: t1 ++ Log LogSearching :: t2 ++ [Log LogNotEnoughLinks].
Proof.
  intros Hf Hs Hlen.
  unfold main, try_catch, bind, events_of. cbn [log].
  rewrite Hf, Hs. apply Nat.ltb_lt in Hlen. rewrite Hlen. reflexivity.
Qed.

(** Whatever the collaborators answer, the two stages after the search
    run to their end. *)
Lemma later_stages_run (original : jsstring) (links : list jsstring)
  (w2 : World) :
  exists texts w3 t3 ai w4 t4,
    promise_all_map (scrapeArticle env) links w2 = (Returned texts, w3, t3) /\
    rewriteWithAI env original texts links w3 = (Returned ai, w4, t4).
Proof.
  destruct (scrape_all_run env links w2) as (texts & w3 & t3 & E3 & _).
  destruct (rewriteWithAI_run env original texts links w3)
    as (ai & w4 & t4 & E4 & _).
  exists texts, w3, t3, ai, w4, t4. split; assumption.
Qed.

(** C3.  In a run that fetched the article and collected [links]: when
    the run goes on to scrape (two links or more), the URLs fetched for
    scraping are [links], in order, and the one chat request of the run is
    the one built from the article's content and [links] (its user message
    joins them after [Refs:]); and whatever is posted to the store carries
    [links] as its references.  Nothing is added, dropped or filtered
    between the stages. *)
Theorem one_reference_list_through_the_run
  (w : World) (article : SourceArticle) (w1 : World) (t1 : list event)
  (links : list jsstring) (w2 : World) (t2 : list event) :
  fetchLatestArticle env w = (Returned article, w1, t1) ->
  googleSearch env (art_title article) w1 = (Returned links, w2, t2) ->
  (2 <= length links ->
     fetched_urls (events_of (main env w)) = links /\
     chat_requests (events_of (main env w)) =
       [rewrite_request (art_content article) links] /\
     exists system,
       map messages (chat_requests (events_of (main env w))) =
         [[system;
           {| role := js "user";
              msg_content :=
                js "Rewrite this: " ++ slice0 800 (art_content article) ++
                js ". Refs: " ++ join (js ", ") links |}]]) /\
  (forall id body,
     In (Post id body) (events_of (main env w)) ->
     p_references body = links /\
     fetched_urls (events_of (main env w)) = links).
Proof.
  intros Hf Hs.
  pose proof (fetchLatestArticle_events env _ _ _ _ Hf) as ->.
  destruct (googleSearch_quiet env _ _ _ _ _ Hs) as (Hq1 & Hq2 & Hq3).
  destruct (le_lt_dec 2 (length links)) as [Hge | Hlt].
  - destruct (later_stages_run (art_content article) links w2)
      as (texts & w3 & t3 & ai & w4 & t4 & E3 & E4).
    destruct (scrape_all_events env _ _ _ _ _ E3) as (F3 & C3 & P3).
    destruct (rewriteWithAI_events env _ _ _ _ _ _ _ E4) as (F4 & C4 & P4).
    destruct (main_events_with_links w article w1 [GetLatest] links w2 t2
                texts w3 t3 ai w4 t4 Hf Hs Hge E3 E4)
      as (tail & Hev & Ft & Ct & Pt).
    assert (HF : fetched_urls (events_of (main env w)) = links).
    { rewrite Hev. project_events. rewrite Hq1, F3, F4, Ft.
      cbn. apply app_nil_r. }
    assert (HC : chat_requests (events_of (main env w)) =
                 [rewrite_request (art_content article) links]).
    { rewrite Hev. project_events. rewrite Hq2, C3, C4, Ct. reflexivity. }
    split.
    + intros _. split; [exact HF |]. split; [exact HC |].
      rewrite HC. eexists. reflexivity.
    + intros id body Hin. split; [| exact HF].
      apply In_posts in Hin. revert Hin. rewrite Hev. project_events.
      rewrite Hq3, P3, P4. cbn [app].
      destruct ai as [r |]; [destruct (content r) |]; rewrite Pt;
        cbn; try tauto.
      intros [H | []]. injection H as _ <-. reflexivity.
  - pose proof (main_events_few_links w article w1 _ links w2 t2 Hf Hs Hlt)
      as Hev.
    split; [intro Hge; lia |].
    intros id body Hin. exfalso.
    apply In_posts in Hin. revert Hin. rewrite Hev. project_events.
    rewrite Hq3. exact (fun H => H).
Qed.

(** C6.  In a run whose rewriter call returns [null], or a result whose
    content is the empty string, nothing is ever posted to the store. *)
Theorem main_never_publishes_without_content
  (w : World) (article : SourceArticle) (w1 : World) (t1 : list event)
  (links : list jsstring) (w2 : World) (t2 : list event)
  (texts : list jsstring) (w3 : World) (t3 : list event)
  (ai : option RewriteResult) (w4 : World) (t4 : list event) :
  fetchLatestArticle env w = (Returned article, w1, t1) ->
  googleSearch env (art_title article) w1 = (Returned links, w2, t2) ->
  promise_all_map (scrapeArticle env) links w2 = (Returned texts, w3, t3) ->
  rewriteWithAI env (art_content article) texts links w3
    = (Returned ai, w4, t4) ->
  ai = None \/ (exists r, ai = Some r /\ content r = []) ->
  forall id body, ~ In (Post id body) (events_of (main env w)).
Proof.
  intros Hf Hs E3 E4 Hai id body Hin.
  pose proof (fetchLatestArticle_events env _ _ _ _ Hf) as ->.
  destruct (googleSearch_quiet env _ _ _ _ _ Hs) as (Hq1 & Hq2 & Hq3).
  apply In_posts in Hin. revert Hin.
  destruct (le_lt_dec 2 (length links)) as [Hge | Hlt].
  - destruct (scrape_all_events env _ _ _ _ _ E3) as (F3 & C3 & P3).
    destruct (rewriteWithAI_events env _ _ _ _ _ _ _ E4) as (F4 & C4 & P4).
    destruct (main_events_with_links w article w1 [GetLatest] links w2 t2
                texts w3 t3 ai w4 t4 Hf Hs Hge E3 E4)
      as (tail & Hev & Ft & Ct & Pt).
    rewrite Hev. project_events. rewrite Hq3, P3, P4. cbn [app].
    destruct Hai as [-> | (r & -> & Hc)].
    + rewrite Pt. exact (fun H => H).
    + rewrite Hc in Pt. rewrite Pt. exact (fun H => H).
  - rewrite (main_events_few_links w article w1 _ links w2 t2 Hf Hs Hlt).
    project_events. rewrite Hq3. exact (fun H => H).
Qed.

(** C4.  Two calls of [rewriteWithAI] that differ in the reference texts
    only behave alike in every world: same outcome, same final world, same
    events.  The one chat request they send is the fixed system message and
    a user message made of the first 800 code units of the original and
    the URLs joined with a comma and a blank; the reference texts do not
    occur in it. *)
Theorem rewrite_prompt_independent_of_reference_texts
  (original : jsstring) (refs refs' urls : list jsstring) (w : World) :
  rewriteWithAI env original refs urls w
    = rewriteWithAI env original refs' urls w /\
  chat_requests (events_of (rewriteWithAI env original refs urls w))
    = [rewrite_request original urls] /\
  map msg_content (messages (rewrite_request original urls))
    = [system_prompt;
       js "Rewrite this: " ++ firstn 800 original ++
       js ". Refs: " ++ join (js ", ") urls].
Proof.
  split; [reflexivity |]. split; [| reflexivity].
  destruct (rewriteWithAI_run env original refs urls w)
    as (ai & w' & tr & E & _ & HC & _).
  rewrite E. exact HC.
Qed.

(** C7.  When the search call succeeds with the ranked list [organic],
    [googleSearch] returns the first two acceptable links of it: at most 2
    URLs, each accepted by [isValidBlogLink], in the order of the ranking. *)
Theorem googleSearch_first_two_acceptable
  (q : jsstring) (w : World) (organic : list organic_result) (w1 : World) :
  serper_search env q w = (Returned organic, w1) ->
  exists links,
    googleSearch env q w = (Returned links, w1, [Search q]) /\
    links = firstn 2 (filter isValidBlogLink (map link organic)) /\
    length links <= 2 /\
    Forall (fun url => isValidBlogLink url = true) links /\
    subsequence links (map link organic).
Proof.
  intro Hs.
  exists (firstn 2 (filter isValidBlogLink (map link organic))).
  split; [| split; [reflexivity | split; [| split]]].
  - unfold googleSearch, try_catch, bind, call, ret. rewrite Hs. reflexivity.
  - apply firstn_le_length.
  - apply Forall_forall. intros url Hin.
    pose proof (firstn_skipn 2 (filter isValidBlogLink (map link organic)))
      as Hsplit.
    assert (Hin' : In url (filter isValidBlogLink (map link organic))).
    { rewrite <- Hsplit. apply in_or_app. left. exact Hin. }
    apply filter_In in Hin'. apply Hin'.
  - eapply subsequence_trans;
      [apply subsequence_firstn | apply subsequence_filter].
Qed.

(** C8.  Whatever the page fetch and the HTML parser answer,
    [scrapeArticle] returns a string of at most 4000 code units in which
    no two neighbouring code units are both white space. *)
Theorem scrapeArticle_bounded_and_single_spaced (url : jsstring) (w : World) :
  exists text,
    outcome_of (scrapeArticle env url w) = Returned text /\
    length text <= 4000 /\
    no_whitespace_run text.
Proof.
  unfold scrapeArticle, try_catch, bind, call, lift, ret, log, outcome_of.
  destruct (get_page env url w) as [[data | e] w1]; cbn.
  - destruct (cheerio_load env data) as [dollar | e]; cbn.
    + eexists. split; [reflexivity |].
      split; [apply clean_text_length | apply clean_text_no_whitespace_run].
    + exists []. split; [reflexivity |].
      split; [cbn; lia | apply has_ws_run_sound; reflexivity].
  - exists []. split; [reflexivity |].
    split; [cbn; lia | apply has_ws_run_sound; reflexivity].
Qed.

(** C9.  When the fetch of the page throws, [scrapeArticle] returns the
    empty string (it does not throw): the error is caught, the URL is
    logged. *)
Theorem scrapeArticle_fetch_failure
  (url : jsstring) (w : World) (e : Error) (w1 : World) :
  get_page env url w = (Raised e, w1) ->
  scrapeArticle env url w
    = (Returned [], w1, [Fetch url; Log (LogScrapeFailed url)]).
Proof.
  intro Hg.
  unfold scrapeArticle, try_catch, bind, call, lift, ret, log.
  rewrite Hg. reflexivity.
Qed.

(** C10, amended.  [publishArticle] posts one body.  Its title is [null]
    exactly when the final content does not hold the shape the title
    pattern scans for, and its description is [null] exactly when the
    content does not hold the shape the description pattern scans for: no
    default string takes the place of a missing extraction.  The shapes
    are wider than elements, so a content without a heading or paragraph
    element can still get a title or a description. *)
Theorem publishArticle_sends_null_metadata
  (id : N) (aiData : jsstring + RewriteResult) (refs : list jsstring)
  (w : World) :
  let finalContent := match aiData with inl s => s | inr r => content r end in
  exists body,
    posts (events_of (publishArticle env id aiData refs w)) = [(id, body)] /\
    p_content body = finalContent /\
    (p_title body = None <-> ~ heading_shape_in finalContent) /\
    (p_description body = None <-> ~ paragraph_shape_in finalContent).
Proof.
  intro finalContent.
  destruct (publishArticle_events env id aiData refs w) as (Hp & _ & _).
  fold finalContent in Hp.
  eexists. split; [exact Hp |]. cbn [p_content p_title p_description].
  split; [reflexivity |]. split.
  - apply extractedTitle_null_iff.
  - apply extractedDesc_null_iff.
Qed.

(** The body posted by [publishArticle] does not depend on the title and
    description of the result object it is given. *)
Lemma publishArticle_ignores_fields
  (id : N) (r : RewriteResult) (t d : jsstring) (refs : list jsstring)
  (w : World) :
  publishArticle env id (inr r) refs w =
  publishArticle env id
    (inr {| title := t; description := d; content := content r |}) refs w.
Proof. reflexivity. Qed.

(** C2, amended.  When the model answers [text], [rewriteWithAI] returns
    a result object.  If [text] is a formatted response (the three markers
    at the start of three lines; the title and description segments of one
    line each, not blank, holding no later marker; the content segment not
    blank), the fields are the three segments from their first code unit
    that is not white space onwards, verbatim: white space after a marker
    is skipped, white space at the end of a segment is kept.  If [text]
    holds none of the three markers, the fields are the default title, the
    default description, and [text] itself. *)
Theorem rewriteWithAI_parses_response
  (original : jsstring) (refs urls : list jsstring) (w : World)
  (text : jsstring) (w1 : World) :
  chatCompletion env (rewrite_request original urls) w = (Returned text, w1) ->
  exists r,
    rewriteWithAI env original refs urls w
      = (Returned (Some r), w1, [Chat (rewrite_request original urls)]) /\
    (forall t d c,
       text = formatted_response t d c ->
       one_line t -> one_line d ->
       skip_ws t <> [] -> skip_ws d <> [] -> skip_ws c <> [] ->
       mentions (js "DESCRIPTION:") t = false ->
       mentions (js "CONTENT:") t = false ->
       mentions (js "CONTENT:") d = false ->
       r = {| title := skip_ws t; description := skip_ws d;
              content := skip_ws c |}) /\
    (mentions (js "TITLE:") text = false ->
     mentions (js "DESCRIPTION:") text = false ->
     mentions (js "CONTENT:") text = false ->
     r = {| title := default_title; description := default_description;
            content := text |}).
Proof.
  intro Hc. exists (parse_response text). split; [| split].
  - unfold rewriteWithAI, try_catch, bind, call, ret. rewrite Hc. reflexivity.
  - intros t d c -> Lt Ld Nt Nd Nc Mdt Mct Mcd.
    apply parse_formatted_response; assumption.
  - apply parse_unformatted_response.
Qed.

End Pipeline.

(* ================================================================== *)
(** * The statements at work on concrete collaborators *)
(* ================================================================== *)

Lemma rewriteWithAI_parses_response_witness :
  (exists r,
     rewriteWithAI Demo.env_padded (js "Original body") [] Demo.two_links 0
       = (Returned (Some r), 1,
          [Chat (rewrite_request (js "Original body") Demo.two_links)]) /\
     r = {| title := js "A "; description := js "B";
            content := js "<p>C</p>" ++ [LF] |}) /\
  (exists r,
     rewriteWithAI Demo.env_prose (js "Original body") [] Demo.two_links 0
       = (Returned (Some r), 1,
          [Chat (rewrite_request (js "Original body") Demo.two_links)]) /\
     r = {| title := default_title; description := default_description;
            content := Demo.prose_reply |}).
Proof.
  split.
  - destruct (rewriteWithAI_parses_response Demo.env_padded
                (js "Original body") [] Demo.two_links 0
                Demo.padded_reply 1 eq_refl) as (r & E & Hfmt & _).
    exists r. split; [exact E |].
    apply (Hfmt (js " A ") (js " B") (js " <p>C</p>" ++ [LF]));
      try reflexivity; try (repeat constructor); try (cbn; discriminate).
  - destruct (rewriteWithAI_parses_response Demo.env_prose
                (js "Original body") [] Demo.two_links 0
                Demo.prose_reply 1 eq_refl) as (r & E & _ & Hnone).
    exists r. split; [exact E |].
    apply Hnone; reflexivity.
Defined.

Lemma one_reference_list_through_the_run_witness :
  fetched_urls (events_of (main Demo.env_publish 0)) = Demo.two_links /\
  chat_requests (events_of (main Demo.env_publish 0)) =
    [rewrite_request (js "Original body") Demo.two_links] /\
  map (fun p => p_references (snd p))
      (posts (events_of (main Demo.env_publish 0))) = [Demo.two_links].
Proof.
  destruct (one_reference_list_through_the_run Demo.env_publish 0
              Demo.the_article 1 [GetLatest] Demo.two_links 2
              [Search (js "X")] eq_refl eq_refl) as (Hscrape & _).
  destruct Hscrape as (HF & HC & _); [cbn; lia |].
  split; [exact HF |]. split; [exact HC |]. reflexivity.
Defined.

Lemma main_aborts_without_two_links_witness :
  (forall url, ~ In (Fetch url) (events_of (main Demo.env_one_link 0))) /\
  (forall req, ~ In (Chat req) (events_of (main Demo.env_one_link 0))).
Proof.
  destruct (main_aborts_without_two_links Demo.env_one_link 0
              Demo.the_article 1 [GetLatest] Demo.one_link 2
              [Search (js "X")]) as (_ & Hfetch & Hchat & _).
  - reflexivity.
  - reflexivity.
  - cbn. lia.
  - split; assumption.
Defined.

Lemma main_never_publishes_without_content_witness :
  posts (events_of (main Demo.env_llm_down 0)) = [] /\
  chat_requests (events_of (main Demo.env_llm_down 0))
    = [rewrite_request (js "Original body") Demo.two_links].
Proof.
  split; [| reflexivity].
  destruct (posts (events_of (main Demo.env_llm_down 0)))
    as [| [id body] rest] eqn:E; [reflexivity | exfalso].
  eapply (main_never_publishes_without_content Demo.env_llm_down 0
            Demo.the_article 1 [GetLatest] Demo.two_links 2
            [Search (js "X")] _ _ _ None _ _
            eq_refl eq_refl eq_refl eq_refl (or_introl eq_refl) id body).
  apply In_posts. rewrite E. left. reflexivity.
Defined.

Lemma googleSearch_first_two_acceptable_witness :
  googleSearch Demo.env_publish (js "X") 1
    = (Returned Demo.two_links, 2, [Search (js "X")]).
Proof.
  destruct (googleSearch_first_two_acceptable Demo.env_publish (js "X") 1
              Demo.three_hits 2 eq_refl) as (links & E & -> & _).
  exact E.
Defined.

Lemma scrapeArticle_fetch_failure_witness :
  scrapeArticle Demo.env_page_down (js "https://blog.example.com/x") 2
    = (Returned [], 3,
       [Fetch (js "https://blog.example.com/x");
        Log (LogScrapeFailed (js "https://blog.example.com/x"))]).
Proof.
  apply (scrapeArticle_fetch_failure Demo.env_page_down
           (js "https://blog.example.com/x") 2
           (js "timeout of 10000ms exceeded") 3).
  reflexivity.
Defined.

Lemma publishArticle_sends_null_metadata_witness :
  exists body,
    posts (events_of (publishArticle Demo.env_publish 7
                        (inl (js "Plain words")) Demo.two_links 0))
      = [(7%N, body)] /\
    p_title body = None /\ p_description body = None.
Proof.
  destruct (publishArticle_sends_null_metadata Demo.env_publish 7
              (inl (js "Plain words")) Demo.two_links 0)
    as (body & Hp & _ & Ht & Hd).
  exists body. split; [exact Hp |]. split.
  - apply Ht. intro H. apply heading_shape_has_LT in H. cbn in H.
    repeat (destruct H as [H | H]; [discriminate |]). exact H.
  - apply Hd. intro H. apply paragraph_shape_has_LT in H. cbn in H.
    repeat (destruct H as [H | H]; [discriminate |]). exact H.
Defined.

(** C10 as stated fails.  The first content holds no start tag of an
    [h1] or [h2] element ([h1x] is another tag name, and the closing
    [</h1>] opens nothing), yet the title posted for it is [foo], not
    [null].  The second holds no start tag of a [p] element, yet the
    description posted for it is [x]. *)
Lemma publishArticle_matches_without_element :
  (start_tag_in (js "h1") (js "<h1x>foo</h1>") = false /\
   start_tag_in (js "h2") (js "<h1x>foo</h1>") = false /\
   posts (events_of (publishArticle Demo.env_publish 7
                       (inl (js "<h1x>foo</h1>")) Demo.two_links 0))
     = [(7%N, {| p_title := Some (js "foo");
                 p_description := None;
                 p_content := js "<h1x>foo</h1>";
                 p_references := Demo.two_links |})]) /\
  (start_tag_in (js "p") (js "<pre>x</pre></p>") = false /\
   posts (events_of (publishArticle Demo.env_publish 7
                       (inl (js "<pre>x</pre></p>")) Demo.two_links 0))
     = [(7%N, {| p_title := None;
                 p_description := Some (js "x");
                 p_content := js "<pre>x</pre></p>";
                 p_references := Demo.two_links |})]).
Proof. repeat split; reflexivity. Qed.

(** C2 as stated fails.  The response is in the format of the system
    prompt; the title line ends with a blank and the content with a line
    feed, and both stay in the result, which therefore is not made of the
    trimmed segments. *)
Lemma rewriteWithAI_keeps_trailing_white_space :
  Demo.padded_reply
    = formatted_response (js " A ") (js " B") (js " <p>C</p>" ++ [LF]) /\
  outcome_of (rewriteWithAI Demo.env_padded (js "Original body") []
                Demo.two_links 0)
    = Returned (Some {| title := js "A "; description := js "B";
                        content := js "<p>C</p>" ++ [LF] |}) /\
  outcome_of (rewriteWithAI Demo.env_padded (js "Original body") []
                Demo.two_links 0)
    <> Returned (Some {| title := trim (js " A ");
                         description := trim (js " B");
                         content := trim (js " <p>C</p>" ++ [LF]) |}).
Proof.
  split; [reflexivity |]. split; [reflexivity |].
  vm_compute. discriminate.
Qed.

(** C1, the code at a failing input.  The model answers in the asked
    format with a title and a description of its own; the run reaches the
    publish stage; the body posted to the store carries the text of the
    first heading and of the first paragraph of the content in their
    place. *)
Theorem published_metadata_is_not_the_rewriters :
  parse_response Demo.good_reply
    = {| title := js "New Title"; description := js "New Desc";
         content := js "<h2>Inner Heading</h2><p>Body text</p>" |} /\
  posts (events_of (main Demo.env_publish 0))
    = [(7%N,
        {| p_title := Some (js "Inner Heading");
           p_description := Some (js "Body text");
           p_content := js "<h2>Inner Heading</h2><p>Body text</p>";
           p_references := Demo.two_links |})].
Proof. split; reflexivity. Qed.

(* ================================================================== *)
(** * Examples *)
(* ================================================================== *)

Example isValidBlogLink_wikipedia :
  isValidBlogLink (js "https://en.wikipedia.org/wiki/X") = false.
Proof. reflexivity. Qed.

Example isValidBlogLink_blog :
  isValidBlogLink (js "https://blog.example.com/x") = true.
Proof. reflexivity. Qed.

(** Three hits, one of them an encyclopedia page: the two others are
    kept, in their order. *)
Example googleSearch_three_hits :
  outcome_of (googleSearch Demo.env_publish (js "X") 0)
    = Returned Demo.two_links.
Proof. reflexivity. Qed.

Example clean_text_page :
  clean_text (js "  Reference   text " ++ [LF; LF] ++ js " of a page ")
    = js "Reference text of a page".
Proof. reflexivity. Qed.

Example extraction_hello_world :
  extractedTitle (js "<h1>Hello</h1><p>World</p>") = Some (js "Hello") /\
  extractedDesc (js "<h1>Hello</h1><p>World</p>") = Some (js "World").
Proof. split; reflexivity. Qed.

Example extraction_without_tags :
  extractedTitle (js "Hello World") = None /\
  extractedDesc (js "Hello World") = None.
Proof. split; reflexivity. Qed.

(** The paragraph pattern scans for shapes: any tag whose name starts with
    [p] opens a match. *)
Example extraction_scans_shapes :
  extractedDesc (js "<pre>x</pre></p>") = Some (js "x").
Proof. reflexivity. Qed.

(** A marker inside the title displaces the later captures. *)
Example parse_response_marker_in_title :
  parse_response (formatted_response (js " Content: a guide") (js " B")
                                     (js " <p>C</p>"))
    = {| title := js "Content: a guide";
         description := js "B";
         content := js "a guide" ++ [LF] ++ js "DESCRIPTION: B" ++ [LF]
                    ++ js "CONTENT: <p>C</p>" |}.
Proof. reflexivity. Qed.

(** A model that answers with the empty string: the content is empty,
    and the run stops before publishing. *)
Example empty_reply_is_not_published :
  content (parse_response []) = [] /\
  posts (events_of
           (main (Demo.demo_env (Returned Demo.three_hits) Demo.page_ok
                                (Returned [])) 0)) = [].
Proof. split; reflexivity. Qed.

(* ================================================================== *)
(** * Further properties: the link filter *)
(* ================================================================== *)

Lemma strip_prefix_eqb_self (pat r : jsstring) :
  strip_prefix N.eqb pat (pat ++ r) = Some r.
Proof.
  induction pat as [| p pat IH]; cbn; [reflexivity |].
  rewrite N.eqb_refl. exact IH.
Qed.

Lemma Forall2_eqb_eq (pat m : jsstring) :
  Forall2 (fun p c => (p =? c)%N = true) pat m -> m = pat.
Proof.
  induction 1 as [| p c pat m Hpc _ IH]; [reflexivity |].
  apply N.eqb_eq in Hpc. subst. reflexivity.
Qed.

(** [includes] is the substring test. *)
Lemma includes_iff (pat s : jsstring) :
  includes pat s = true <-> occurs_in pat s.
Proof.
  unfold includes, occurs_in. split.
  - destruct (search (strip_prefix N.eqb pat) s) as [r |] eqn:E;
      [| discriminate].
    intros _. apply search_sound in E as (pre & suf & -> & Hm).
    apply strip_prefix_sound in Hm as (m & -> & HF).
    apply Forall2_eqb_eq in HF. subst m. exists pre, r. reflexivity.
  - intros (pre & post & ->).
    pose proof (search_complete (strip_prefix N.eqb pat) pre (pat ++ post))
      as H.
    rewrite strip_prefix_eqb_self in H.
    destruct (search (strip_prefix N.eqb pat) (pre ++ pat ++ post));
      [reflexivity |].
    exfalso. apply H; [discriminate | reflexivity].
Qed.

Lemma includes_false_iff (pat s : jsstring) :
  includes pat s = false <-> ~ occurs_in pat s.
Proof.
  rewrite <- includes_iff. destruct (includes pat s); split; congruence.
Qed.

(** X1.  [isValidBlogLink] rejects a URL exactly when one of the five
    excluded domain strings occurs in it, at any place and in this exact
    letter case; every other string is accepted. *)
Theorem isValidBlogLink_rejects_exactly (url : jsstring) :
  isValidBlogLink url = false <->
  exists domain, In domain excluded_domains /\ occurs_in domain url.
Proof.
  unfold isValidBlogLink, excluded_domains. split.
  - intro H.
    repeat (apply andb_false_iff in H as [H | H]);
      apply negb_false_iff, includes_iff in H;
      eexists; (split; [| exact H]); cbn; tauto.
  - intros (domain & Hin & Hocc). apply includes_iff in Hocc.
    cbn [In] in Hin.
    repeat (destruct Hin as [<- | Hin]; [rewrite Hocc; cbn [negb andb];
      rewrite ?andb_false_r; reflexivity |]).
    contradiction.
Qed.

(* ================================================================== *)
(** * Further properties: cleaned and extracted text *)
(* ================================================================== *)

Lemma skip_ws_starts_clean (s : jsstring) : starts_clean (skip_ws s).
Proof.
  induction s as [| c s IH]; cbn [skip_ws]; [intros d r H; discriminate |].
  destruct (isWhiteSpace c) eqn:Hc; [exact IH |].
  intros d r H. injection H as <- _. exact Hc.
Qed.

Lemma starts_clean_prefix (s t : jsstring) :
  starts_clean (s ++ t) -> starts_clean s.
Proof. intros H c r ->. apply (H c (r ++ t)). reflexivity. Qed.

Lemma trimEnd_cons (c : N) (s : jsstring) :
  trimEnd (c :: s) =
    match trimEnd s with
    | [] => if isWhiteSpace c then [] else [c]
    | _ :: _ => c :: trimEnd s
    end.
Proof. reflexivity. Qed.

Lemma trimEnd_ends_clean (s : jsstring) : ends_clean (trimEnd s).
Proof.
  induction s as [| x s IH]; [intros [| ? ?] c H; discriminate |].
  rewrite trimEnd_cons. destruct (trimEnd s) as [| y l].
  - destruct (isWhiteSpace x) eqn:Hx; [intros [| ? ?] c H; discriminate |].
    intros [| a [| ? ?]] c H; try discriminate.
    injection H as <-. exact Hx.
  - intros [| a front] c H; [discriminate |].
    injection H as _ H. exact (IH front c H).
Qed.

Lemma trim_starts_clean (s : jsstring) : starts_clean (trim s).
Proof.
  unfold trim, trimStart.
  destruct (trimEnd_prefix (skip_ws s)) as (y & E).
  apply (starts_clean_prefix _ y). rewrite <- E. apply skip_ws_starts_clean.
Qed.

Lemma trim_ends_clean (s : jsstring) : ends_clean (trim s).
Proof. apply trimEnd_ends_clean. Qed.

Lemma collapse_from_only_plain_spaces (s : jsstring) (in_run : bool) :
  only_plain_spaces (collapse_from in_run s).
Proof.
  revert in_run; induction s as [| c s IH]; intros in_run d Hin Hd;
    [contradiction |].
  cbn [collapse_from] in Hin. destruct (isWhiteSpace c) eqn:Hc.
  - destruct in_run.
    + exact (IH true d Hin Hd).
    + destruct Hin as [<- | Hin]; [reflexivity | exact (IH true d Hin Hd)].
  - destruct Hin as [<- | Hin]; [congruence | exact (IH false d Hin Hd)].
Qed.

Lemma only_plain_spaces_infix (x s y : jsstring) :
  only_plain_spaces (x ++ s ++ y) -> only_plain_spaces s.
Proof.
  intros H c Hin. apply H. apply in_or_app. right.
  apply in_or_app. left. exact Hin.
Qed.

Lemma clean_text_only_plain_spaces (text : jsstring) :
  only_plain_spaces (clean_text text).
Proof.
  destruct (clean_text_infix text) as (x & y & E).
  apply (only_plain_spaces_infix x _ y). rewrite <- E.
  apply collapse_from_only_plain_spaces.
Qed.

Lemma clean_text_starts_clean (text : jsstring) :
  starts_clean (clean_text text).
Proof.
  unfold clean_text, slice0.
  apply (starts_clean_prefix _ (skipn 4000 (trim (collapse_ws text)))).
  rewrite firstn_skipn. apply trim_starts_clean.
Qed.

(** When the cut at 4000 did not bite, the end is clean as well. *)
Lemma clean_text_ends_clean (text : jsstring) :
  length (clean_text text) < 4000 -> ends_clean (clean_text text).
Proof.
  unfold clean_text, slice0. intro H.
  assert (E : firstn 4000 (trim (collapse_ws text)) = trim (collapse_ws text)).
  { apply firstn_all2.
    destruct (le_lt_dec (length (trim (collapse_ws text))) 4000) as [Hle | Hgt];
      [exact Hle |].
    rewrite firstn_length_le in H by lia. lia. }
  rewrite E. apply trim_ends_clean.
Qed.

(** Text made of white space only is cleaned to the empty string. *)
Lemma collapse_from_blank (s : jsstring) :
  Forall (fun c => isWhiteSpace c = true) s ->
  collapse_from true s = [] /\
  (collapse_from false s = [] \/ collapse_from false s = [SPACE]).
Proof.
  induction 1 as [| c s Hc _ (IH1 & IH2)]; cbn [collapse_from].
  - split; [reflexivity | left; reflexivity].
  - rewrite Hc. split; [exact IH1 | right; rewrite IH1; reflexivity].
Qed.

Lemma clean_text_blank (s : jsstring) :
  Forall (fun c => isWhiteSpace c = true) s -> clean_text s = [].
Proof.
  intro H. unfold clean_text, collapse_ws.
  destruct (collapse_from_blank s H) as (_ & [-> | ->]); reflexivity.
Qed.

(** What [strip_tags] leaves comes from its input, and has no tag shape. *)
Lemma strip_from_In (s : jsstring) (in_tag : bool) (c : N) :
  In c (strip_from in_tag s) -> In c s.
Proof.
  revert in_tag; induction s as [| x s IH]; intros in_tag; [exact (fun H => H) |].
  cbn [strip_from]. destruct in_tag.
  - destruct (x =? GT)%N; intro H; right; exact (IH _ H).
  - destruct (x =? LT)%N.
    + destruct (tag_rest s).
      * intro H; right; exact (IH _ H).
      * intros [H | H]; [left; exact H | right; exact (IH _ H)].
    + intros [H | H]; [left; exact H | right; exact (IH _ H)].
Qed.

Lemma tag_rest_none (s : jsstring) : tag_rest s = None -> ~ In GT s.
Proof.
  induction s as [| c s IH]; cbn [tag_rest]; [intros _ H; exact H |].
  destruct (c =? GT)%N eqn:E; [discriminate |].
  intros H [Hc | Hin]; [| exact (IH H Hin)].
  apply N.eqb_neq in E. congruence.
Qed.

Lemma strip_from_tagless (s : jsstring) (in_tag : bool) :
  tagless (strip_from in_tag s).
Proof.
  revert in_tag; induction s as [| x s IH]; intros in_tag.
  - intros [| ? ?] back H; discriminate.
  - cbn [strip_from]. destruct in_tag.
    + destruct (x =? GT)%N; apply IH.
    + destruct (x =? LT)%N eqn:Ex.
      * destruct (tag_rest s) eqn:Et; [apply IH |].
        intros [| a front] back H.
        -- injection H as _ <-. intro Hin.
           apply (tag_rest_none s Et). exact (strip_from_In _ _ _ Hin).
        -- injection H as _ H. exact (IH false front back H).
      * intros [| a front] back H.
        -- injection H as -> _. rewrite N.eqb_refl in Ex. discriminate.
        -- injection H as _ H. exact (IH false front back H).
Qed.

Lemma tagless_infix (x s y : jsstring) : tagless (x ++ s ++ y) -> tagless s.
Proof.
  intros H front back -> Hin.
  apply (H (x ++ front) (back ++ y)).
  - rewrite <- !app_assoc. reflexivity.
  - apply in_or_app. left. exact Hin.
Qed.

Lemma trim_infix (s : jsstring) : exists x y, s = x ++ trim s ++ y.
Proof.
  unfold trim, trimStart.
  destruct (skip_ws_suffix s) as (x & Hx).
  destruct (trimEnd_prefix (skip_ws s)) as (y & Hy).
  exists x, y. rewrite <- Hy. exact Hx.
Qed.

Lemma extracted_clean (m : option jsstring) (t : jsstring) :
  extracted m = Some t -> starts_clean t /\ ends_clean t /\ tagless t.
Proof.
  destruct m as [inner |]; [| discriminate].
  cbn. intro H. injection H as <-.
  split; [apply trim_starts_clean |]. split; [apply trim_ends_clean |].
  destruct (trim_infix (strip_tags inner)) as (x & y & E).
  apply (tagless_infix x _ y). rewrite <- E. apply strip_from_tagless.
Qed.

(** A string that is already clean is left as it is. *)
Lemma collapse_from_fixed (s : jsstring) :
  only_plain_spaces s -> no_whitespace_run s ->
  collapse_from false s = s /\ (starts_clean s -> collapse_from true s = s).
Proof.
  induction s as [| c s IH]; intros Hplain Hrun; [split; reflexivity |].
  assert (Hplain' : only_plain_spaces s).
  { intros d Hd. apply Hplain. right. exact Hd. }
  assert (Hrun' : no_whitespace_run s).
  { apply (no_whitespace_run_infix [c] s []). rewrite app_nil_r. exact Hrun. }
  destruct (IH Hplain' Hrun') as (IHf & IHt).
  cbn [collapse_from]. destruct (isWhiteSpace c) eqn:Hc.
  - split.
    + rewrite (Hplain c (or_introl eq_refl) Hc). f_equal.
      apply IHt. intros d rest ->.
      destruct (isWhiteSpace d) eqn:Hd; [| reflexivity].
      exfalso. apply (Hrun [] c d rest eq_refl). split; assumption.
    + intro Hs. rewrite (Hs c s eq_refl) in Hc. discriminate.
  - split; [| intros _]; f_equal; exact IHf.
Qed.

Lemma skip_ws_fixed (s : jsstring) : starts_clean s -> skip_ws s = s.
Proof.
  destruct s as [| c s]; [reflexivity |]. intro H.
  cbn [skip_ws]. rewrite (H c s eq_refl). reflexivity.
Qed.

Lemma trimEnd_fixed (s : jsstring) : ends_clean s -> trimEnd s = s.
Proof.
  induction s as [| x s IH]; [reflexivity |]. intro H.
  rewrite trimEnd_cons. destruct s as [| y s].
  - cbn. rewrite (H [] x eq_refl). reflexivity.
  - rewrite IH; [reflexivity |].
    intros front c E. apply (H (x :: front) c). cbn. f_equal. exact E.
Qed.

(** X13.  Cleaning is idempotent on what it returns below the cut: a
    cleaned text of fewer than 4000 code units is left unchanged when it
    is cleaned again. *)
Theorem clean_text_idempotent (text : jsstring) :
  length (clean_text text) < 4000 ->
  clean_text (clean_text text) = clean_text text.
Proof.
  intro Hlen.
  pose proof (clean_text_only_plain_spaces text) as Hplain.
  pose proof (clean_text_no_whitespace_run text) as Hrun.
  pose proof (clean_text_starts_clean text) as Hstart.
  pose proof (clean_text_ends_clean text Hlen) as Hend.
  remember (clean_text text) as s eqn:Es.
  unfold clean_text at 1, collapse_ws, trim, trimStart, slice0.
  destruct (collapse_from_fixed s Hplain Hrun) as (-> & _).
  rewrite (skip_ws_fixed s Hstart), (trimEnd_fixed s Hend).
  apply firstn_all2. lia.
Qed.

Lemma clean_text_idempotent_witness :
  clean_text (clean_text (js "  a   b " ++ [LF; 9%N] ++ js "c  "))
    = js "a b c".
Proof.
  rewrite (clean_text_idempotent (js "  a   b " ++ [LF; 9%N] ++ js "c  ")).
  - reflexivity.
  - cbn. lia.
Defined.

(* ================================================================== *)
(** * Further properties: the fields of a parsed response *)
(* ================================================================== *)

Lemma rest_of_line_one_line (s : jsstring) : one_line (rest_of_line s).
Proof.
  induction s as [| c s IH]; cbn [rest_of_line]; [constructor |].
  destruct (isLineTerminator c) eqn:Hc; constructor; assumption.
Qed.

Lemma rest_of_line_prefix (s : jsstring) :
  exists y, s = rest_of_line s ++ y.
Proof.
  induction s as [| c s (y & IH)]; [exists []; reflexivity |].
  cbn [rest_of_line]. destruct (isLineTerminator c).
  - exists (c :: s). reflexivity.
  - exists y. cbn. f_equal. exact IH.
Qed.

Lemma match_line_captured (marker text x : jsstring) :
  match_line marker text = Some x -> one_line x /\ starts_clean x.
Proof.
  unfold match_line. intro H.
  apply search_sound in H as (pre & suf & _ & Hm).
  destruct (strip_prefix ci_eq marker suf) as [r |]; [| discriminate].
  cbn in Hm. injection Hm as <-.
  split; [apply rest_of_line_one_line |].
  destruct (rest_of_line_prefix (skip_ws r)) as (y & E).
  apply (starts_clean_prefix _ y). rewrite <- E. apply skip_ws_starts_clean.
Qed.

Lemma capture_or_cases (m : option jsstring) (fallback : jsstring) :
  capture_or m fallback = fallback \/
  (exists c, m = Some c /\ c <> [] /\ capture_or m fallback = c).
Proof.
  destruct m as [[| c rest] |]; cbn.
  - left; reflexivity.
  - right. exists (c :: rest). repeat split; [discriminate].
  - left; reflexivity.
Qed.

(** A line field with a default that is itself a clean, non-empty line. *)
Lemma line_field_clean (marker text fallback : jsstring) :
  fallback <> [] -> one_line fallback -> starts_clean fallback ->
  let v := capture_or (match_line marker text) fallback in
  v <> [] /\ one_line v /\ starts_clean v.
Proof.
  intros Hne Hl Hs v. subst v.
  destruct (capture_or_cases (match_line marker text) fallback)
    as [-> | (c & Hm & Hc & ->)].
  - repeat split; assumption.
  - destruct (match_line_captured _ _ _ Hm) as (H1 & H2).
    repeat split; assumption.
Qed.

Lemma default_title_clean :
  default_title <> [] /\ one_line default_title /\ starts_clean default_title.
Proof.
  split; [discriminate |]. split.
  - unfold one_line. apply Forall_forall. intros c Hin.
    cbn in Hin. repeat (destruct Hin as [<- | Hin]; [reflexivity |]).
    contradiction.
  - intros c rest H. injection H as <- _. reflexivity.
Qed.

Lemma default_description_clean :
  default_description <> [] /\ one_line default_description /\
  starts_clean default_description.
Proof.
  split; [discriminate |]. split.
  - unfold one_line. apply Forall_forall. intros c Hin.
    cbn in Hin. repeat (destruct Hin as [<- | Hin]; [reflexivity |]).
    contradiction.
  - intros c rest H. injection H as <- _. reflexivity.
Qed.

Lemma parse_response_content_empty (text : jsstring) :
  content (parse_response text) = [] <-> text = [].
Proof.
  split.
  - cbn [parse_response content].
    destruct (capture_or_cases (match_rest (js "CONTENT:") text) text)
      as [-> | (c & _ & Hc & ->)]; [exact (fun H => H) | congruence].
  - intros ->. reflexivity.
Qed.

(** Lines ended by any line terminator. *)
Lemma strip_prefix_sep_end (pat a b : jsstring) (sep : N) :
  Forall (fun p => ci_eq p sep = false) pat ->
  strip_prefix ci_eq pat a = None ->
  strip_prefix ci_eq pat (a ++ sep :: b) = None.
Proof.
  intro HF; revert a.
  induction HF as [| p pat Hp _ IH]; intros a; cbn [strip_prefix];
    [discriminate |].
  destruct a as [| c a]; cbn [app].
  - intros _. rewrite Hp. reflexivity.
  - destruct (ci_eq p c); [apply IH | reflexivity].
Qed.

Lemma search_past_sep {A : Type} (f : jsstring -> A) (pat a b : jsstring)
  (sep : N) :
  Forall (fun p => ci_eq p sep = false) pat ->
  search (strip_prefix ci_eq pat) a = None ->
  search (fun x => option_map f (strip_prefix ci_eq pat x)) (a ++ sep :: b) =
  search (fun x => option_map f (strip_prefix ci_eq pat x)) b.
Proof.
  intro HF. induction a as [| c a IH]; intro H.
  - apply search_none_nil in H. cbn [app]. apply search_next.
    pose proof (strip_prefix_sep_end pat [] b sep HF H) as E.
    cbn [app] in E. rewrite E. reflexivity.
  - apply search_none_cons in H as [H1 H2]. cbn [app].
    rewrite search_next; [exact (IH H2) |].
    pose proof (strip_prefix_sep_end pat (c :: a) b sep HF H1) as E.
    cbn [app] in E. rewrite E. reflexivity.
Qed.

Lemma search_past_unit {A : Type} (f : jsstring -> A) (pat t : jsstring)
  (c : N) :
  clash pat [c] = true ->
  search (fun x => option_map f (strip_prefix ci_eq pat x)) (c :: t) =
  search (fun x => option_map f (strip_prefix ci_eq pat x)) t.
Proof.
  intro H. apply search_next.
  pose proof (clash_strip_prefix pat [c] t H) as E.
  cbn [app] in E. rewrite E. reflexivity.
Qed.

Lemma rest_of_line_sep (u x : jsstring) (sep : N) :
  isLineTerminator sep = true -> one_line u ->
  rest_of_line (u ++ sep :: x) = u.
Proof.
  intro Hsep. induction 1 as [| c u Hc _ IH]; cbn [app rest_of_line].
  - rewrite Hsep. reflexivity.
  - rewrite Hc, IH. reflexivity.
Qed.

Lemma match_line_at_marker_sep (marker t x : jsstring) (sep : N) :
  isLineTerminator sep = true ->
  one_line t -> skip_ws t <> [] ->
  search (fun s => option_map (fun r => rest_of_line (skip_ws r))
                              (strip_prefix ci_eq marker s))
         (marker ++ t ++ sep :: x)
  = Some (skip_ws t).
Proof.
  intros Hsep Hline Hne. apply search_here.
  rewrite strip_prefix_self. cbn [option_map].
  rewrite skip_ws_app by exact Hne.
  rewrite rest_of_line_sep; [reflexivity | exact Hsep |].
  apply skip_ws_Forall. exact Hline.
Qed.

Lemma marker_has_no (sep : N) (pat : jsstring) :
  forallb (fun p => negb (ci_eq p sep)) pat = true ->
  Forall (fun p => ci_eq p sep = false) pat.
Proof.
  intro H. apply Forall_forall. intros p Hp.
  rewrite forallb_forall in H. apply negb_true_iff. apply H. exact Hp.
Qed.

Lemma parse_formatted_response_crlf (t d c : jsstring) :
  one_line t -> one_line d ->
  skip_ws t <> [] -> skip_ws d <> [] -> skip_ws c <> [] ->
  mentions (js "DESCRIPTION:") t = false ->
  mentions (js "CONTENT:") t = false ->
  mentions (js "CONTENT:") d = false ->
  parse_response (formatted_response_crlf t d c) =
    {| title := skip_ws t; description := skip_ws d; content := skip_ws c |}.
Proof.
  intros Lt Ld Nt Nd Nc Mdt Mct Mcd.
  apply mentions_false in Mdt, Mct, Mcd.
  unfold parse_response, formatted_response_crlf, match_line, match_rest.
  rewrite (match_line_at_marker_sep (js "TITLE:") t _ CR eq_refl Lt Nt).
  rewrite (search_past_prefix _ (js "DESCRIPTION:") (js "TITLE:"))
    by reflexivity.
  rewrite (search_past_sep _ (js "DESCRIPTION:") t _ CR)
    by (try apply marker_has_no; first [reflexivity | assumption]).
  rewrite (search_past_unit _ (js "DESCRIPTION:") _ LF) by reflexivity.
  rewrite (match_line_at_marker_sep (js "DESCRIPTION:") d _ CR eq_refl Ld Nd).
  rewrite (search_past_prefix _ (js "CONTENT:") (js "TITLE:")) by reflexivity.
  rewrite (search_past_sep _ (js "CONTENT:") t _ CR)
    by (try apply marker_has_no; first [reflexivity | assumption]).
  rewrite (search_past_unit _ (js "CONTENT:") _ LF) by reflexivity.
  rewrite (search_past_prefix _ (js "CONTENT:") (js "DESCRIPTION:"))
    by reflexivity.
  rewrite (search_past_sep _ (js "CONTENT:") d _ CR)
    by (try apply marker_has_no; first [reflexivity | assumption]).
  rewrite (search_past_unit _ (js "CONTENT:") _ LF) by reflexivity.
  rewrite (search_here _ _ (skip_ws c))
    by (rewrite strip_prefix_self; reflexivity).
  rewrite !capture_or_nonempty by assumption.
  reflexivity.
Qed.

(* ================================================================== *)
(** * Further properties: the stages and the workflow *)
(* ================================================================== *)

Section Workflow.

Context {World Body : Type} (env : Collaborators World Body).

(** What [googleSearch] returns, whether the search succeeds or not. *)
Lemma googleSearch_links (q : jsstring) (w : World)
  (links : list jsstring) (w1 : World) (t : list event) :
  googleSearch env q w = (Returned links, w1, t) ->
  length links <= 2 /\ Forall (fun url => isValidBlogLink url = true) links.
Proof.
  unfold googleSearch, try_catch, bind, call, ret, log.
  destruct (serper_search env q w) as [[organic | e] w']; cbv beta iota;
    intro H; injection H as <- _ _.
  - change (length (firstn 2 (filter isValidBlogLink (map link organic))) <= 2
            /\ Forall (fun url => isValidBlogLink url = true)
                      (firstn 2 (filter isValidBlogLink (map link organic)))).
    split; [apply firstn_le_length |].
    apply Forall_forall. intros url Hin. apply filter_In with (l := map link organic).
    rewrite <- (firstn_skipn 2 (filter _ _)). apply in_or_app. left. exact Hin.
  - split; [cbn; lia | constructor].
Qed.

(** X8.  When the model answers [text], the result's title and
    description are never empty, hold no line terminator and do not begin
    with white space, whatever [text] is; its content is the empty string
    only when [text] itself is empty. *)
Theorem rewriteWithAI_result_fields
  (original : jsstring) (refs urls : list jsstring) (w : World)
  (text : jsstring) (w1 : World) :
  chatCompletion env (rewrite_request original urls) w = (Returned text, w1) ->
  exists r,
    rewriteWithAI env original refs urls w
      = (Returned (Some r), w1, [Chat (rewrite_request original urls)]) /\
    title r <> [] /\ one_line (title r) /\ starts_clean (title r) /\
    description r <> [] /\ one_line (description r) /\
    starts_clean (description r) /\
    (content r = [] <-> text = []).
Proof.
  intro Hc. exists (parse_response text).
  split.
  { unfold rewriteWithAI, try_catch, bind, call, ret. rewrite Hc. reflexivity. }
  destruct default_title_clean as (T1 & T2 & T3).
  destruct default_description_clean as (D1 & D2 & D3).
  destruct (line_field_clean (js "TITLE:") text default_title T1 T2 T3)
    as (A1 & A2 & A3).
  destruct (line_field_clean (js "DESCRIPTION:") text default_description
              D1 D2 D3) as (B1 & B2 & B3).
  repeat (split; [assumption |]).
  apply parse_response_content_empty.
Qed.

(** X9.  When the page is fetched and parsing it throws, [scrapeArticle]
    returns the empty string as it does for a failed fetch: the error is
    caught and the URL logged. *)
Theorem scrapeArticle_parser_failure
  (url : jsstring) (w : World) (data : Body) (w1 : World) (e : Error) :
  get_page env url w = (Returned data, w1) ->
  cheerio_load env data = Raised e ->
  scrapeArticle env url w
    = (Returned [], w1, [Fetch url; Log (LogScrapeFailed url)]).
Proof.
  intros Hg Hl.
  unfold scrapeArticle, try_catch, bind, call, lift, ret, log.
  rewrite Hg, Hl. reflexivity.
Qed.

(** X10.  The selector is chosen on the raw text, before cleaning: an
    [article] element whose text is not empty but white space only wins
    over [main] and [body], and the result is the empty string, whatever
    text these hold.  Nothing is logged. *)
Theorem scrapeArticle_blank_article
  (url : jsstring) (w : World) (data : Body) (w1 : World)
  (dollar : selector -> jsstring) :
  get_page env url w = (Returned data, w1) ->
  cheerio_load env data = Returned dollar ->
  dollar sel_article <> [] ->
  Forall (fun c => isWhiteSpace c = true) (dollar sel_article) ->
  scrapeArticle env url w = (Returned [], w1, [Fetch url]).
Proof.
  intros Hg Hl Hne Hblank.
  unfold scrapeArticle, try_catch, bind, call, lift, ret, log.
  rewrite Hg, Hl. cbv beta iota.
  assert (Hraw : or_else (dollar sel_article)
                   (or_else (dollar sel_main) (dollar sel_body))
                 = dollar sel_article).
  { destruct (dollar sel_article); [congruence | reflexivity]. }
  rewrite Hraw, (clean_text_blank _ Hblank). reflexivity.
Qed.

(** X11.  In the string [scrapeArticle] returns, every white-space code
    unit is the plain space (tabs, line breaks and the other Unicode
    blanks are gone) and the first code unit is not white space; the last
    one is not white space either unless the cut at 4000 was reached. *)
Theorem scrapeArticle_text_normalised (url : jsstring) (w : World) :
  exists text,
    outcome_of (scrapeArticle env url w) = Returned text /\
    only_plain_spaces text /\
    starts_clean text /\
    (length text < 4000 -> ends_clean text).
Proof.
  assert (Hnil : only_plain_spaces [] /\ starts_clean [] /\
                 (length (@nil N) < 4000 -> ends_clean [])).
  { split; [intros c [] |]. split; [intros c r H; discriminate |].
    intros _ [| ? ?] c H; discriminate. }
  unfold scrapeArticle, try_catch, bind, call, lift, ret, log, outcome_of.
  destruct (get_page env url w) as [[data | e] w1]; cbn.
  - destruct (cheerio_load env data) as [dollar | e]; cbn.
    + eexists. split; [reflexivity |].
      split; [apply clean_text_only_plain_spaces |].
      split; [apply clean_text_starts_clean | apply clean_text_ends_clean].
    + exists []. split; [reflexivity | exact Hnil].
  - exists []. split; [reflexivity | exact Hnil].
Qed.

(** X12.  A title or description that [publishArticle] posts, when it is
    not [null], neither begins nor ends with white space, and nothing in
    it has the shape of a tag: no ['<'] with a ['>'] after it. *)
Theorem publishArticle_metadata_clean
  (id : N) (aiData : jsstring + RewriteResult) (refs : list jsstring)
  (w : World) :
  exists body,
    posts (events_of (publishArticle env id aiData refs w)) = [(id, body)] /\
    (forall t, p_title body = Some t ->
               starts_clean t /\ ends_clean t /\ tagless t) /\
    (forall d, p_description body = Some d ->
               starts_clean d /\ ends_clean d /\ tagless d).
Proof.
  destruct (publishArticle_events env id aiData refs w) as (Hp & _ & _).
  cbn zeta in Hp. eexists. split; [exact Hp |].
  cbn [p_title p_description]. split; intros t Ht.
  - exact (extracted_clean _ _ Ht).
  - exact (extracted_clean _ _ Ht).
Qed.

(** X2.  [main] never throws: whatever the collaborators answer or
    throw, the run ends normally, every error having been caught and
    logged. *)
Theorem main_never_throws (w : World) :
  outcome_of (main env w) = Returned tt.
Proof.
  unfold main, try_catch, bind, outcome_of. cbn [log].
  destruct (fetchLatestArticle env w) as [[[article | e] w1] t1];
    [| reflexivity].
  destruct (googleSearch_run env (art_title article) w1)
    as (links & w2 & t2 & -> & _).
  destruct (length links <? 2); [reflexivity |].
  destruct (scrape_all_run env links w2) as (texts & w3 & t3 & -> & _).
  destruct (rewriteWithAI_run env (art_content article) texts links w3)
    as (ai & w4 & t4 & -> & _).
  destruct ai as [r |]; [| reflexivity].
  destruct (content r); [reflexivity |].
  destruct (publishArticle env (art_id article) (inr r) links w4)
    as [[[[] | e] w5] t5]; reflexivity.
Qed.

(** X3.  When the fetch of the latest article throws, the run is over at
    once: the error is logged, and no search, page fetch, chat request or
    post is made. *)
Theorem main_store_down (w : World) (e : Error) (w1 : World) :
  get_latest env w = (Raised e, w1) ->
  main env w
    = (Returned tt, w1, [Log LogFetching; GetLatest; Log (LogError e)]).
Proof.
  intro Hg.
  unfold main, try_catch, bind, fetchLatestArticle, call. cbn [log].
  rewrite Hg. reflexivity.
Qed.

(** X4.  When the search call throws, the run does not stop at the error:
    [googleSearch] turns it into an empty list of links, and the run ends
    on the missing links, with no page fetch, chat request or post. *)
Theorem main_search_down
  (w : World) (article : SourceArticle) (w1 : World) (e : Error)
  (w2 : World) :
  get_latest env w = (Returned article, w1) ->
  serper_search env (art_title article) w1 = (Raised e, w2) ->
  main env w
    = (Returned tt, w2,
       [Log LogFetching; GetLatest; Log LogSearching;
        Search (art_title article); Log (LogSearchFailed e);
        Log LogNotEnoughLinks]).
Proof.
  intros Hg Hs.
  assert (Hsearch : googleSearch env (art_title article) w1
                    = (Returned [], w2,
                       [Search (art_title article); Log (LogSearchFailed e)])).
  { unfold googleSearch, try_catch, bind, call, ret, log. rewrite Hs.
    reflexivity. }
  unfold main, fetchLatestArticle, try_catch, bind, call. cbn [log].
  rewrite Hg. cbv beta iota. rewrite Hsearch. reflexivity.
Qed.

(** X7.  The run from the rewriter's answer on.  When the article is
    fetched, two links are collected and the model answers a text that is
    not empty, the parsed result is published: the run posts exactly the
    body made of the two extractions, the parsed content and the links,
    under the article's id.  It then logs success if the post returns and
    the error if the post throws; it does not try again. *)
Theorem main_publish_path
  (w : World) (article : SourceArticle) (w1 : World) (t1 : list event)
  (links : list jsstring) (w2 : World) (t2 : list event)
  (texts : list jsstring) (w3 : World) (t3 : list event)
  (text : jsstring) (w4 : World) (o : outcome unit) (w5 : World) :
  fetchLatestArticle env w = (Returned article, w1, t1) ->
  googleSearch env (art_title article) w1 = (Returned links, w2, t2) ->
  2 <= length links ->
  promise_all_map (scrapeArticle env) links w2 = (Returned texts, w3, t3) ->
  chatCompletion env (rewrite_request (art_content article) links) w3
    = (Returned text, w4) ->
  text <> [] ->
  post_ai_version env (art_id article)
    {| p_title := extractedTitle (content (parse_response text));
       p_description := extractedDesc (content (parse_response text));
       p_content := content (parse_response text);
       p_references := links |} w4 = (o, w5) ->
  main env w
    = (Returned tt, w5,
       Log LogFetching :: t1 ++ Log LogSearching :: t2 ++
       Log LogScraping :: t3 ++
       [Log LogGenerating;
        Chat (rewrite_request (art_content article) links);
        Log (LogPublishing (title (parse_response text)));
        Log (LogExtractedTitle
               (extractedTitle (content (parse_response text))));
        Log (LogExtractedDescription
               (extractedDesc (content (parse_response text))));
        Post (art_id article)
          {| p_title := extractedTitle (content (parse_response text));
             p_description := extractedDesc (content (parse_response text));
             p_content := content (parse_response text);
             p_references := links |};
        Log match o with
            | Returned _ => LogPublished
            | Raised e => LogError e
            end]).
Proof.
  intros Hf Hs Hlen Hscrape Hchat Hne Hpost.
  assert (Hlt : (length links <? 2) = false) by (apply Nat.ltb_ge; exact Hlen).
  assert (Hc : content (parse_response text) <> []).
  { intro H. apply Hne. apply parse_response_content_empty. exact H. }
  unfold main, try_catch at 1, bind. cbn [log].
  rewrite Hf, Hs, Hlt, Hscrape.
  unfold rewriteWithAI, try_catch, bind, call, ret. rewrite Hchat.
  cbv beta iota.
  destruct (content (parse_response text)) as [| c rest] eqn:E;
    [congruence |].
  unfold publishArticle, bind, call, log. cbv beta iota zeta.
  rewrite ?E. rewrite Hpost.
  destruct o as [[] | e]; cbn [app];
    repeat (rewrite <- app_assoc || rewrite <- app_comm_cons);
    reflexivity.
Qed.

(** Every run is of one of two kinds: it ends before scraping and then
    touches none of the three later collaborators, or it scrapes exactly
    two acceptable links, prompts once with them, and posts at most once. *)
Lemma main_shape (w : World) :
  quiet (events_of (main env w)) \/
  exists article w1 links,
    get_latest env w = (Returned article, w1) /\
    length links = 2 /\
    Forall (fun url => isValidBlogLink url = true) links /\
    fetched_urls (events_of (main env w)) = links /\
    chat_requests (events_of (main env w))
      = [rewrite_request (art_content article) links] /\
    (posts (events_of (main env w)) = [] \/
     exists c,
       c <> [] /\
       posts (events_of (main env w))
         = [(art_id article,
             {| p_title := extractedTitle c;
                p_description := extractedDesc c;
                p_content := c;
                p_references := links |})]).
Proof.
  destruct (get_latest env w) as [[article | e] w1] eqn:Hg.
  - assert (Hf : fetchLatestArticle env w
                 = (Returned article, w1, [GetLatest])).
    { unfold fetchLatestArticle, call. rewrite Hg. reflexivity. }
    destruct (googleSearch_run env (art_title article) w1)
      as (links & w2 & t2 & Hs & Hq1 & Hq2 & Hq3).
    destruct (googleSearch_links _ _ _ _ _ Hs) as (Hle & Hvalid).
    destruct (le_lt_dec 2 (length links)) as [Hge | Hlt].
    + right. exists article, w1, links.
      destruct (later_stages_run env (art_content article) links w2)
        as (texts & w3 & t3 & ai & w4 & t4 & E3 & E4).
      destruct (scrape_all_events env _ _ _ _ _ E3) as (F3 & C3 & P3).
      destruct (rewriteWithAI_events env _ _ _ _ _ _ _ E4) as (F4 & C4 & P4).
      destruct (main_events_with_links env w article w1 [GetLatest] links w2
                  t2 texts w3 t3 ai w4 t4 Hf Hs Hge E3 E4)
        as (tail & Hev & Ft & Ct & Pt).
      rewrite Hev. project_events.
      rewrite Hq1, Hq2, Hq3, F3, C3, P3, F4, C4, P4, Ft, Ct.
      cbn [app]. rewrite app_nil_r.
      split; [reflexivity |]. split; [lia |]. split; [exact Hvalid |].
      split; [reflexivity |]. split; [reflexivity |].
      destruct ai as [r |]; [| left; exact Pt].
      destruct (content r) as [| c rest] eqn:Hc; [left; exact Pt |].
      right. exists (c :: rest). split; [discriminate | exact Pt].
    + left.
      rewrite (main_events_few_links env w article w1 _ links w2 t2 Hf Hs Hlt).
      unfold quiet. project_events. rewrite Hq1, Hq2, Hq3.
      repeat split; reflexivity.
  - left. unfold main, try_catch, bind, fetchLatestArticle, call, events_of.
    cbn [log]. rewrite Hg. repeat split; reflexivity.
Qed.

(** Splits the facts that a projection of an append is empty. *)
Ltac split_empty_projections :=
  repeat match goal with
         | H : _ ++ _ = [] |- _ =>
             apply app_eq_nil in H; destruct H
         end.

(** Order from phases.  When a list of events is made of four phases, a
    quiet one, one that only fetches, one that only prompts and one that
    only posts, then at every point of the list a post has a chat request
    before it, and a chat request has all the fetches before it. *)
Lemma order_in_phases (p1 p2 p3 p4 front back : list event) :
  p1 ++ p2 ++ p3 ++ p4 = front ++ back ->
  quiet p1 ->
  chat_requests p2 = [] -> posts p2 = [] ->
  fetched_urls p3 = [] -> posts p3 = [] ->
  fetched_urls p4 = [] -> chat_requests p4 = [] ->
  (chat_requests p3 <> [] -> length (fetched_urls p2) = 2) ->
  (posts p4 <> [] -> chat_requests p3 <> []) ->
  (posts front <> [] -> chat_requests front <> []) /\
  (chat_requests front <> [] -> length (fetched_urls front) = 2).
Proof.
  intros E (F1 & C1 & P1) C2 P2 F3 P3 F4 C4 Hchat Hpost.
  apply app_eq_app in E as (l & [(-> & _) | (-> & E)]).
  { autorewrite with events in *. split_empty_projections.
    split; intro Hne; congruence. }
  apply app_eq_app in E as (l2 & [(-> & _) | (-> & E)]).
  { autorewrite with events in *. split_empty_projections.
    split; intro Hne; exfalso; apply Hne;
      repeat match goal with Hx : _ = [] |- _ => rewrite Hx end;
      reflexivity. }
  apply app_eq_app in E as (l3 & [(-> & _) | (-> & ->)]).
  - autorewrite with events in *. split_empty_projections.
    repeat match goal with
           | Hx : posts _ = [] |- _ => rewrite Hx in *; clear Hx
           | Hx : fetched_urls _ = [] |- _ => rewrite Hx in *; clear Hx
           | Hx : chat_requests ?a = [] |- _ =>
               is_var a; rewrite Hx in *; clear Hx
           end.
    cbn [app] in *. rewrite ?app_nil_r in *.
    split; [intro Hne; exfalso; apply Hne; reflexivity |].
    intro Hne. apply Hchat. intro Hnil.
    apply app_eq_nil in Hnil as [Hnil _]. exact (Hne Hnil).
  - autorewrite with events in *. split_empty_projections.
    repeat match goal with
           | Hx : posts ?a = [] |- _ => is_var a; rewrite Hx in *; clear Hx
           | Hx : fetched_urls ?a = [] |- _ =>
               is_var a; rewrite Hx in *; clear Hx
           | Hx : chat_requests ?a = [] |- _ =>
               is_var a; rewrite Hx in *; clear Hx
           end.
    cbn [app] in *. rewrite ?app_nil_r in *.
    split.
    + intro Hne. apply Hpost. intro Hnil.
      apply app_eq_nil in Hnil as [Hnil _]. exact (Hne Hnil).
    + exact Hchat.
Qed.

(** Every run is made of such phases: what comes before the scraping,
    the scraping, the call of the model, and what follows it. *)
Lemma main_phases (w : World) :
  exists p1 p2 p3 p4,
    events_of (main env w) = p1 ++ p2 ++ p3 ++ p4 /\
    quiet p1 /\
    chat_requests p2 = [] /\ posts p2 = [] /\
    fetched_urls p3 = [] /\ posts p3 = [] /\
    fetched_urls p4 = [] /\ chat_requests p4 = [] /\
    (chat_requests p3 <> [] -> length (fetched_urls p2) = 2) /\
    (posts p4 <> [] -> chat_requests p3 <> []).
Proof.
  assert (Hquiet : forall tr, quiet tr ->
            exists p1 p2 p3 p4 : list event,
              tr = p1 ++ p2 ++ p3 ++ p4 /\ quiet p1 /\
              chat_requests p2 = [] /\ posts p2 = [] /\
              fetched_urls p3 = [] /\ posts p3 = [] /\
              fetched_urls p4 = [] /\ chat_requests p4 = [] /\
              (chat_requests p3 <> [] -> length (fetched_urls p2) = 2) /\
              (posts p4 <> [] -> chat_requests p3 <> [])).
  { intros tr Hq. exists tr, [], [], []. rewrite !app_nil_r.
    split; [reflexivity |]. split; [exact Hq |].
    repeat (split; [reflexivity |]).
    split; intro Hne; exfalso; apply Hne; reflexivity. }
  destruct (get_latest env w) as [[article | e] w1] eqn:Hg.
  - assert (Hf : fetchLatestArticle env w
                 = (Returned article, w1, [GetLatest])).
    { unfold fetchLatestArticle, call. rewrite Hg. reflexivity. }
    destruct (googleSearch_run env (art_title article) w1)
      as (links & w2 & t2 & Hs & Hq1 & Hq2 & Hq3).
    destruct (googleSearch_links _ _ _ _ _ Hs) as (Hle & _).
    destruct (le_lt_dec 2 (length links)) as [Hge | Hlt].
    + destruct (later_stages_run env (art_content article) links w2)
        as (texts & w3 & t3 & ai & w4 & t4 & E3 & E4).
      destruct (scrape_all_events env _ _ _ _ _ E3) as (F3 & C3 & P3).
      destruct (rewriteWithAI_events env _ _ _ _ _ _ _ E4) as (F4 & C4 & P4).
      destruct (main_events_with_links env w article w1 [GetLatest] links w2
                  t2 texts w3 t3 ai w4 t4 Hf Hs Hge E3 E4)
        as (tail & Hev & Ft & Ct & Pt).
      exists (Log LogFetching :: [GetLatest] ++ Log LogSearching :: t2
              ++ [Log LogScraping]),
             t3, (Log LogGenerating :: t4), tail.
      split.
      { rewrite Hev. cbn [app].
        repeat (rewrite <- app_assoc || rewrite <- app_comm_cons).
        reflexivity. }
      split.
      { unfold quiet. project_events. rewrite Hq1, Hq2, Hq3.
        repeat split; reflexivity. }
      project_events. rewrite F3, C4.
      repeat split; try assumption; try lia; try discriminate.
    + apply Hquiet.
      rewrite (main_events_few_links env w article w1 _ links w2 t2 Hf Hs Hlt).
      unfold quiet. project_events. rewrite Hq1, Hq2, Hq3.
      repeat split; reflexivity.
  - apply Hquiet.
    unfold main, try_catch, bind, fetchLatestArticle, call, events_of.
    cbn [log]. rewrite Hg. repeat split; reflexivity.
Qed.

(** X5.  No run calls the model or the store's write endpoint more than
    once, and a run fetches either no page or exactly two.  A post is
    made only after a chat request, and a chat request only after the two
    pages have been fetched: in every initial part [front] of the events
    of a run, a post comes with a chat request, and a chat request with
    the two fetches. *)
Theorem main_call_bounds (w : World) :
  length (chat_requests (events_of (main env w))) <= 1 /\
  length (posts (events_of (main env w))) <= 1 /\
  (fetched_urls (events_of (main env w)) = [] \/
   length (fetched_urls (events_of (main env w))) = 2) /\
  (posts (events_of (main env w)) <> [] ->
   chat_requests (events_of (main env w)) <> []) /\
  (chat_requests (events_of (main env w)) <> [] ->
   length (fetched_urls (events_of (main env w))) = 2) /\
  (forall front back,
     events_of (main env w) = front ++ back ->
     (posts front <> [] -> chat_requests front <> []) /\
     (chat_requests front <> [] -> length (fetched_urls front) = 2)).
Proof.
  assert (Horder : forall front back,
            events_of (main env w) = front ++ back ->
            (posts front <> [] -> chat_requests front <> []) /\
            (chat_requests front <> [] -> length (fetched_urls front) = 2)).
  { intros front back E.
    destruct (main_phases w)
      as (p1 & p2 & p3 & p4 & Hev & Hq & C2 & P2 & F3 & P3 & F4 & C4
          & Hchat & Hpost).
    rewrite Hev in E.
    exact (order_in_phases p1 p2 p3 p4 front back E Hq C2 P2 F3 P3 F4 C4
             Hchat Hpost). }
  destruct (main_shape w) as [(HF & HC & HP) |
    (article & w1 & links & _ & Hlen & _ & HF & HC & HP)].
  - rewrite HF, HC, HP. cbn.
    repeat split; try lia; try (left; reflexivity); try congruence;
      apply (Horder front back); assumption.
  - rewrite HF, HC.
    assert (HPle : length (posts (events_of (main env w))) <= 1).
    { destruct HP as [-> | (c & _ & ->)]; cbn; lia. }
    repeat split; try assumption; try (cbn; lia);
      try (right; exact Hlen); try discriminate;
      apply (Horder front back); assumption.
Qed.

(** X6.  Whatever a run posts to the store is complete: it goes under
    the id of the article the run fetched, its content is not empty, its
    title and description are the extractions from that content, and its
    references are exactly two URLs, each accepted by [isValidBlogLink]. *)
Theorem main_posts_well_formed (w : World) (id : N) (body : payload) :
  In (Post id body) (events_of (main env w)) ->
  (exists article w1,
     get_latest env w = (Returned article, w1) /\ id = art_id article) /\
  p_content body <> [] /\
  p_title body = extractedTitle (p_content body) /\
  p_description body = extractedDesc (p_content body) /\
  length (p_references body) = 2 /\
  Forall (fun url => isValidBlogLink url = true) (p_references body).
Proof.
  intro Hin. apply In_posts in Hin.
  destruct (main_shape w) as [(_ & _ & HP) |
    (article & w1 & links & Hg & Hlen & Hvalid & _ & _ & HP)].
  - rewrite HP in Hin. contradiction.
  - destruct HP as [HP | (c & Hc & HP)]; rewrite HP in Hin;
      [contradiction |].
    destruct Hin as [Hin | []]. injection Hin as <- <-.
    cbn [p_content p_title p_description p_references].
    split; [exists article, w1; split; [exact Hg | reflexivity] |].
    repeat split; assumption.
Qed.

(** X14.  A response whose lines end with a carriage return and a line
    feed is parsed like one whose lines end with a line feed: the carriage
    return ends the captured line and does not become part of the title
    or of the description. *)
Theorem rewriteWithAI_parses_crlf
  (original : jsstring) (refs urls : list jsstring) (w : World)
  (t d c : jsstring) (w1 : World) :
  chatCompletion env (rewrite_request original urls) w
    = (Returned (formatted_response_crlf t d c), w1) ->
  one_line t -> one_line d ->
  skip_ws t <> [] -> skip_ws d <> [] -> skip_ws c <> [] ->
  mentions (js "DESCRIPTION:") t = false ->
  mentions (js "CONTENT:") t = false ->
  mentions (js "CONTENT:") d = false ->
  rewriteWithAI env original refs urls w
    = (Returned (Some {| title := skip_ws t; description := skip_ws d;
                         content := skip_ws c |}),
       w1, [Chat (rewrite_request original urls)]).
Proof.
  intros Hc Lt Ld Nt Nd Nc Mdt Mct Mcd.
  unfold rewriteWithAI, try_catch, bind, call, ret. rewrite Hc.
  cbv beta iota.
  rewrite (parse_formatted_response_crlf t d c) by assumption.
  reflexivity.
Qed.

Lemma scrapeArticle_result_clean (url : jsstring) (w : World)
  (text : jsstring) (w1 : World) (tr : list event) :
  scrapeArticle env url w = (Returned text, w1, tr) ->
  length text <= 4000 /\ no_whitespace_run text.
Proof.
  unfold scrapeArticle, try_catch, bind, call, lift, ret, log.
  destruct (get_page env url w) as [[data | e] w']; cbv beta iota.
  - destruct (cheerio_load env data) as [dollar | e]; cbv beta iota;
      intro H; injection H as <- _ _.
    + split; [apply clean_text_length | apply clean_text_no_whitespace_run].
    + split; [cbn; lia | apply has_ws_run_sound; reflexivity].
  - intro H; injection H as <- _ _.
    split; [cbn; lia | apply has_ws_run_sound; reflexivity].
Qed.

(** X15.  Scraping a list of links never aborts: every link is fetched,
    in order, whatever happens to the others, and there is one text per
    link, each of at most 4000 code units and without a run of white
    space (the empty string where the fetch or the parse failed). *)
Theorem scrape_all_never_aborts (links : list jsstring) (w : World) :
  exists texts w' tr,
    promise_all_map (scrapeArticle env) links w = (Returned texts, w', tr) /\
    length texts = length links /\
    fetched_urls tr = links /\
    Forall (fun text => length text <= 4000 /\ no_whitespace_run text) texts.
Proof.
  revert w; induction links as [| url links IH]; intro w.
  - exists [], w, []. repeat split; constructor.
  - destruct (scrapeArticle_run env url w) as (text & w1 & t1 & E1 & F1 & _).
    destruct (IH w1) as (texts & w2 & t2 & E2 & L2 & F2 & A2).
    exists (text :: texts), w2, (t1 ++ t2 ++ []).
    cbn [promise_all_map]. unfold bind at 1. rewrite E1.
    unfold bind at 1. rewrite E2. cbn [ret].
    split; [reflexivity |]. split; [cbn; f_equal; exact L2 |].
    split.
    + autorewrite with events. rewrite F1, F2. reflexivity.
    + constructor; [exact (scrapeArticle_result_clean _ _ _ _ _ E1) | exact A2].
Qed.

End Workflow.

(* ================================================================== *)
(** * The further properties at work on concrete collaborators *)
(* ================================================================== *)

Lemma main_store_down_witness :
  main Demo.env_store_down 0
    = (Returned tt, 1,
       [Log LogFetching; GetLatest;
        Log (LogError (js "connect ECONNREFUSED"))]).
Proof.
  apply (main_store_down Demo.env_store_down 0
           (js "connect ECONNREFUSED") 1).
  reflexivity.
Defined.

Lemma main_search_down_witness :
  main Demo.env_search_down 0
    = (Returned tt, 2,
       [Log LogFetching; GetLatest; Log LogSearching; Search (js "X");
        Log (LogSearchFailed (js "Request failed with status code 403"));
        Log LogNotEnoughLinks]).
Proof.
  apply (main_search_down Demo.env_search_down 0 Demo.the_article 1
           (js "Request failed with status code 403") 2);
    reflexivity.
Defined.

Lemma main_posts_well_formed_witness :
  (exists article w1,
     get_latest Demo.env_publish 0 = (Returned article, w1) /\
     7%N = art_id article) /\
  length (p_references Demo.good_body) = 2.
Proof.
  destruct (main_posts_well_formed Demo.env_publish 0 7 Demo.good_body)
    as (Hid & _ & _ & _ & Hrefs & _).
  - apply In_posts. left. reflexivity.
  - split; [exact Hid | exact Hrefs].
Defined.

Lemma main_publish_path_witness :
  exists tr,
    main Demo.env_post_down 0 = (Returned tt, 6, tr) /\
    posts tr = [(7%N, Demo.good_body)] /\
    last tr GetLatest
      = Log (LogError (js "Request failed with status code 500")).
Proof.
  eexists. split.
  - eapply (main_publish_path Demo.env_post_down 0 Demo.the_article 1 _
              Demo.two_links 2 _ _ 4 _ Demo.good_reply 5 (Raised _) 6).
    + reflexivity.
    + reflexivity.
    + cbn. lia.
    + reflexivity.
    + reflexivity.
    + discriminate.
    + reflexivity.
  - split; reflexivity.
Defined.

Lemma rewriteWithAI_result_fields_witness :
  exists r,
    rewriteWithAI Demo.env_prose (js "Original body") [] Demo.two_links 0
      = (Returned (Some r), 1,
         [Chat (rewrite_request (js "Original body") Demo.two_links)]) /\
    title r <> [] /\ description r <> [] /\
    (content r = [] <-> Demo.prose_reply = []).
Proof.
  destruct (rewriteWithAI_result_fields Demo.env_prose (js "Original body")
              [] Demo.two_links 0 Demo.prose_reply 1 eq_refl)
    as (r & E & T & _ & _ & D & _ & _ & C).
  exists r. repeat split; try assumption; apply C.
Defined.

Lemma scrapeArticle_parser_failure_witness :
  scrapeArticle Demo.env_parser_down (js "https://blog.example.com/x") 2
    = (Returned [], 3,
       [Fetch (js "https://blog.example.com/x");
        Log (LogScrapeFailed (js "https://blog.example.com/x"))]).
Proof.
  eapply (scrapeArticle_parser_failure Demo.env_parser_down
            (js "https://blog.example.com/x") 2); reflexivity.
Defined.

Lemma scrapeArticle_blank_article_witness :
  scrapeArticle Demo.env_blank_article (js "https://blog.example.com/x") 2
    = (Returned [], 3, [Fetch (js "https://blog.example.com/x")]).
Proof.
  eapply (scrapeArticle_blank_article Demo.env_blank_article
            (js "https://blog.example.com/x") 2).
  - reflexivity.
  - reflexivity.
  - discriminate.
  - repeat constructor.
Defined.

Lemma rewriteWithAI_parses_crlf_witness :
  rewriteWithAI Demo.env_crlf (js "Original body") [] Demo.two_links 0
    = (Returned (Some {| title := js "New Title";
                         description := js "New Desc";
                         content := js "<p>Body</p>" |}),
       1, [Chat (rewrite_request (js "Original body") Demo.two_links)]).
Proof.
  apply (rewriteWithAI_parses_crlf Demo.env_crlf (js "Original body") []
           Demo.two_links 0 (js " New Title") (js " New Desc")
           (js " <p>Body</p>") 1);
    try reflexivity; try (repeat constructor); try (cbn; discriminate).
Defined.

(** Start tags, as opposed to the shapes the patterns scan for. *)
Example start_tag_in_paragraph :
  start_tag_in (js "p") (js "<p>x</p>") = true /\
  start_tag_in (js "p") (js "a <P class=x>b</P>") = true /\
  start_tag_in (js "p") (js "<pre>x</pre>") = false.
Proof. repeat split; reflexivity. Qed.

(** The order stated of the events of a run refuses a post that comes
    before the chat request. *)
Example order_refuses_post_first (u : jsstring) (r : chat_request)
  (b : payload) :
  ~ (forall front back,
       [Post 1 b; Chat r; Fetch u; Fetch u] = front ++ back ->
       (posts front <> [] -> chat_requests front <> []) /\
       (chat_requests front <> [] -> length (fetched_urls front) = 2)).
Proof.
  intro H.
  destruct (H [Post 1 b] [Chat r; Fetch u; Fetch u] eq_refl) as (H1 & _).
  apply H1; [discriminate | reflexivity].
Qed.
